(** * go-cdb: the constant database writer and reader

    A shallow embedding of package [cdb]: the record store ([Put]), the
    index builder ([finalize]), the one-shot guard of [Close] and [Freeze],
    the checksum check of [Open], the probing reader ([Get]) and [Hash32];
    followed by the properties of the on-disk format that the database
    relies on. *)

From Stdlib Require Import ZArith Lia List Bool.
From stdpp Require Import base list.
From coqutil Require Import Byte Word.LittleEndianList.

Local Open Scope Z_scope.

(** ** Machine integers, bytes and outcomes *)

Abbreviation bytes := (list byte).

#[global] Instance byte_eq_dec : EqDecision byte := Byte.byte_eq_dec.

Definition MaxUint32 : Z := 4294967295.

(** Values that a [uint32] holds. *)
Definition is_uint32 (z : Z) : Prop := 0 <= z <= MaxUint32.

(** Conversion to [uint32]: the low 32 bits. *)
Definition uint32 (z : Z) : Z := z mod 2 ^ 32.

(** Results of [int] and [int64] arithmetic: two's complement on 64 bits. *)
Definition int64 (z : Z) : Z := (z + 2 ^ 63) mod 2 ^ 64 - 2 ^ 63.

(** Results of [uint64] arithmetic. *)
Definition uint64 (z : Z) : Z := z mod 2 ^ 64.

(** Go's [len], an [int]. *)
Definition len {A} (l : list A) : Z := Z.of_nat (length l).

Inductive error : Type :=
  | ErrTooMuchData   (* "CDB files are limited to 4GB of data" *)
  | ErrEOF           (* io.EOF: a positioned read ran past the end of the file *)
  | ErrClosed        (* os.ErrClosed: the file was already closed *)
  | ErrTooSmall      (* "cdb file %s too small" *)
  | ErrChecksum.     (* "checksum failed. DB possibly corrupt!" *)

(** A Go [(T, error)] pair of which one side is meaningful. *)
Inductive result (A : Type) : Type :=
  | Ok (a : A)
  | Err (e : error).
Arguments Ok {A} a.
Arguments Err {A} e.

(** How a call ends: it returns, it panics (index out of range, integer
    divide by zero, nil dereference), or an unbounded [for] loop has used up
    the revolutions it was given. *)
Inductive outcome (A : Type) : Type :=
  | Returns (a : A)
  | Panics
  | Spins.
Arguments Returns {A} a.
Arguments Panics {A}.
Arguments Spins {A}.

#[global] Instance outcome_bind : MBind outcome := fun A B k o =>
  match o with
  | Returns a => k a
  | Panics => Panics
  | Spins => Spins
  end.

(** ** The backing file

    An [*os.File] is its content, its position and whether it was closed.
    The medium itself never fails: a write lands, a read fails only past the
    end of the content or on a closed file. *)

Record File : Type := mkFile {
  data : bytes;
  pos : Z;
  closed : bool
}.

(** [f.Write(p)]: the bytes land at the position, which moves past them;
    a position beyond the end leaves a hole of zero bytes. *)
Definition file_Write (f : File) (p : bytes) : File :=
  let at_ := Z.to_nat (pos f) in
  {| data := take at_ (data f) ++ replicate (at_ - length (data f)) Byte.x00
               ++ p ++ drop (at_ + length p) (data f);
     pos := pos f + len p;
     closed := closed f |}.

(** [f.Seek(off, os.SEEK_SET)]. *)
Definition file_Seek (f : File) (off : Z) : File :=
  {| data := data f; pos := off; closed := closed f |}.

(** [f.Seek(0, os.SEEK_END)] also reports the size. *)
Definition file_SeekEnd (f : File) : File * Z :=
  (file_Seek f (len (data f)), len (data f)).

(** [f.Close()]. *)
Definition file_Close (f : File) : File * option error :=
  if closed f then (f, Some ErrClosed)
  else ({| data := data f; pos := pos f; closed := true |}, None).

(** [r.ReadAt(buf, off)] with [len(buf) = n]: all [n] bytes or an error. A
    read of no bytes asks nothing of the file and succeeds. *)
Definition ReadAt (r : File) (n : Z) (off : Z) : result bytes :=
  if n =? 0 then Ok []
  else if closed r then Err ErrClosed
  else if off + n <=? len (data r)
       then Ok (take (Z.to_nat n) (drop (Z.to_nat off) (data r)))
       else Err ErrEOF.

(** ** Binary codec *)

(** [binary.LittleEndian.PutUint32] *)
Definition PutUint32 (v : Z) : bytes := le_split 4 v.

(** [binary.LittleEndian.Uint32] *)
Definition Uint32 (b : bytes) : Z := le_combine b.

(** Modelled from the spec: [writeTuple], whose source is not among the files
    kept; section 4.2, "write a pair of u32 as 8 little-endian bytes", by
    sequential append. These are the bytes it appends. *)
Definition writeTuple (first second : Z) : bytes :=
  PutUint32 first ++ PutUint32 second.

(** Modelled from the spec: [readTuple], whose source is not among the files
    kept; section 4.2, "read a pair of u32 from 8 little-endian bytes at a
    given absolute offset", through the read-at contract of the medium. *)
Definition readTuple (r : File) (offset : Z) : result (Z * Z) :=
  match ReadAt r 8 offset with
  | Err e => Err e
  | Ok tuple => Ok (Uint32 (take 4 tuple), Uint32 (drop 4 tuple))
  end.

(** ** Data model *)

Record entry : Type := mkEntry {
  entry_hash : Z;
  entry_offset : Z
}.

Record table : Type := mkTable {
  table_offset : Z;
  table_length : Z
}.

Definition indexSize : Z := 256 * 8.

(** The zero values of [entry], [table] and [index]. *)
Definition entry0 : entry := mkEntry 0 0.
Definition table0 : table := mkTable 0 0.
Definition index0 : list table := replicate 256 table0.

#[global] Instance entry_inhabited : Inhabited entry := populate entry0.
#[global] Instance table_inhabited : Inhabited table := populate table0.

(** [Writer]: [bufferedWriter] is [None] once it is nil, and else holds the
    bytes handed to the [bufio.Writer], which go to the file at [Flush]; that
    [bufio] passes them on earlier, 65536 at a time, in the same order to
    the same place, is seen by no function here. [finalizeOnce] is the done
    flag of the [sync.Once]. The hash function is shared by writer and
    reader and is a parameter of the development. *)
Record Writer : Type := mkWriter {
  writer : File;
  entries : list (list entry);
  finalizeOnce : bool;
  bufferedWriter : option bytes;
  bufferedOffset : Z;
  estimatedFooterSize : Z
}.

(** [CDB]: the reader and the directory held in memory. *)
Record CDB : Type := mkCDB {
  reader : File;
  index : list table
}.

(** ** The default hash function *)

(** [Hash32], over the 64-bit hash of the fasthash package. *)
Definition Hash32 (Hash64 : Z -> bytes -> Z) (key : bytes) : Z :=
  let h := uint64 (Hash64 0x2de9ce7b97d9569f key) in
  uint32 (uint64 (h - Z.shiftr h 32)).

(** ** Hash functions and digests to run the code on *)

(** The first byte of the key above a bucket number of 3; the empty key
    hashes to 0. *)
Definition toy_hasher (key : bytes) : Z :=
  match key with
  | [] => 0
  | b :: _ => byte.unsigned b * 256 + 3
  end.

(** Every key hashes to 0. *)
Definition null_hasher (key : bytes) : Z := 0.

(** A digest of the right size that tells contents apart by their length. *)
Definition toy_sha256 (b : bytes) : bytes :=
  le_split 32 (len b).

(** The records of the package's test: "hello" to "world", "abc" to "def",
    "123" to "345"; and "foo", which is not among them. *)
Definition hello : bytes := [Byte.x68; Byte.x65; Byte.x6c; Byte.x6c; Byte.x6f].
Definition world : bytes := [Byte.x77; Byte.x6f; Byte.x72; Byte.x6c; Byte.x64].
Definition abc : bytes := [Byte.x61; Byte.x62; Byte.x63].
Definition def : bytes := [Byte.x64; Byte.x65; Byte.x66].
Definition k123 : bytes := [Byte.x31; Byte.x32; Byte.x33].
Definition v345 : bytes := [Byte.x33; Byte.x34; Byte.x35].
Definition foo : bytes := [Byte.x66; Byte.x6f; Byte.x6f].

Definition testRecords : list (bytes * bytes) :=
  [(hello, world); (abc, def); (k123, v345)].

(** The keys the test expects not to find: "foo", "bar" and "quux". *)
Definition bar : bytes := [Byte.x62; Byte.x61; Byte.x72].
Definition quux : bytes := [Byte.x71; Byte.x75; Byte.x75; Byte.x78].
Definition invKeys : list bytes := [foo; bar; quux].

(** A value as large as [Put] accepts in an empty database. *)
Definition largest_value : bytes := replicate (Z.to_nat 4294965223) Byte.x00.

Section Cdb.

(** The hash function in use, for writing and for reading; its result is a
    [uint32]. *)
Variable hasher : bytes -> Z.

(** [crypto/sha256]: the digest of a byte sequence. *)
Variable sha256 : bytes -> bytes.

Definition sha256_Size : Z := 32.

Definition hash_of (key : bytes) : Z := uint32 (hasher key).

(** ** The writer *)

(** [NewWriter]: room for the index at the head of the file. *)
Definition NewWriter (f : File) : result Writer :=
  if closed f then Err ErrClosed
  else
    let f := file_Seek f 0 in
    let f := file_Write f (replicate (Z.to_nat indexSize) Byte.x00) in
    Ok {| writer := f;
          entries := replicate 256 [];
          finalizeOnce := false;
          bufferedWriter := Some [];
          bufferedOffset := indexSize;
          estimatedFooterSize := 0 |}.

(** [Create]: the file is opened with [O_TRUNC|O_CREATE], hence empty. The
    hash function is the one of the development, [Hash32] or another. *)
Definition Create : result Writer := NewWriter (mkFile [] 0 false).

(** [Put] *)
Definition Put (cdb : Writer) (key value : bytes) : outcome (Writer * option error) :=
  let entrySize := int64 (int64 (8 + len key) + len value) in
  if int64 (int64 (int64 (bufferedOffset cdb + entrySize)
                    + estimatedFooterSize cdb) + 16) >? MaxUint32
  then Returns (cdb, Some ErrTooMuchData)
  else
    let hash := hash_of key in
    let table := Z.to_nat (Z.land hash 0xff) in
    let e := {| entry_hash := hash; entry_offset := uint32 (bufferedOffset cdb) |} in
    match entries cdb !! table with
    | None => Panics
    | Some tableEntries =>
      let entries' := <[table := tableEntries ++ [e]]> (entries cdb) in
      match bufferedWriter cdb with
      | None => Panics
      | Some buf =>
        let buf := buf ++ writeTuple (uint32 (len key)) (uint32 (len value)) in
        let buf := buf ++ key in
        let buf := buf ++ value in
        Returns ({| writer := writer cdb;
                    entries := entries';
                    finalizeOnce := finalizeOnce cdb;
                    bufferedWriter := Some buf;
                    bufferedOffset := int64 (bufferedOffset cdb + entrySize);
                    estimatedFooterSize := int64 (estimatedFooterSize cdb + 16) |},
                 None)
      end
    end.

(** The innermost loop of [finalize]: from [slot], step forward to the first
    slot whose hash is zero and store the entry there. [revs] bounds the
    slots visited. *)
Fixpoint probe (revs : nat) (sorted : list entry) (tableSize slot : Z) (e : entry)
  : outcome (list entry) :=
  match revs with
  | O => Spins
  | S revs' =>
    match sorted !! Z.to_nat slot with
    | None => Panics
    | Some s =>
      if entry_hash s =? 0
      then Returns (<[Z.to_nat slot := e]> sorted)
      else probe revs' sorted tableSize (uint32 (slot + 1) mod tableSize) e
    end
  end.

(** The loop over [tableEntries]. One revolution of the table is given to
    each entry: a revolution that meets no zero hash repeats for ever. *)
Fixpoint place (sorted : list entry) (tableSize : Z) (tableEntries : list entry)
  : outcome (list entry) :=
  match tableEntries with
  | [] => Returns sorted
  | e :: rest =>
    if tableSize =? 0 then Panics
    else
      let slot := Z.shiftr (entry_hash e) 8 mod tableSize in
      sorted' ← probe (Z.to_nat tableSize) sorted tableSize slot e;
      place sorted' tableSize rest
  end.

(** The loop over [sorted]: each slot is written, then the offset is
    advanced and checked. *)
Fixpoint write_sorted (buf : bytes) (off : Z) (sorted : list entry)
  : bytes * Z * option error :=
  match sorted with
  | [] => (buf, off, None)
  | e :: rest =>
    let buf := buf ++ writeTuple (entry_hash e) (entry_offset e) in
    let off := int64 (off + 8) in
    if off >? MaxUint32 then (buf, off, Some ErrTooMuchData)
    else write_sorted buf off rest
  end.

(** [make([]entry, tableSize)] filled by the placement loop. *)
Definition sort_table (tableEntries : list entry) : Z * outcome (list entry) :=
  let tableSize := uint32 (int64 (len tableEntries * 2)) in
  (tableSize, place (replicate (Z.to_nat tableSize) entry0) tableSize tableEntries).

(** The loop [for i := 0; i < 256; i++] of [finalize], with [n] rounds left. *)
Fixpoint write_tables (n : nat) (i : nat) (ents : list (list entry))
    (index : list table) (buf : bytes) (off : Z)
  : outcome (list table * bytes * Z * option error) :=
  match n with
  | O => Returns (index, buf, off, None)
  | S n' =>
    match ents !! i with
    | None => Panics
    | Some tableEntries =>
      let '(tableSize, sorting) := sort_table tableEntries in
      let index := <[i := {| table_offset := uint32 off; table_length := tableSize |}]> index in
      sorted ← sorting;
      match write_sorted buf off sorted with
      | (buf, off, Some err) => Returns (index, buf, off, Some err)
      | (buf, off, None) => write_tables n' (S i) ents index buf off
      end
    end
  end.

(** The index as the 2048 bytes at the head of the file. *)
Definition index_bytes (index : list table) : bytes :=
  concat (map (fun t => PutUint32 (table_offset t) ++ PutUint32 (table_length t)) index).

(** [finalize] *)
Definition finalize (cdb : Writer) : outcome (Writer * list table * option error) :=
  match bufferedWriter cdb with
  | None => Panics
  | Some buf =>
    r ← write_tables 256 0 (entries cdb) index0 buf (bufferedOffset cdb);
    match r with
    | (index, buf, off, Some err) =>
      Returns ({| writer := writer cdb; entries := entries cdb;
                  finalizeOnce := finalizeOnce cdb;
                  bufferedWriter := Some buf;
                  bufferedOffset := off;
                  estimatedFooterSize := estimatedFooterSize cdb |}, index, Some err)
    | (index, buf, off, None) =>
      let done (f : File) (err : option error) :=
        Returns ({| writer := f; entries := entries cdb;
                    finalizeOnce := finalizeOnce cdb;
                    bufferedWriter := None;
                    bufferedOffset := off;
                    estimatedFooterSize := estimatedFooterSize cdb |}, index, err) in
      if closed (writer cdb) then done (writer cdb) (Some ErrClosed)
      else
        (* Flush *)
        let f := file_Write (writer cdb) buf in
        (* the index at the beginning of the file *)
        let f := file_Seek f 0 in
        let f := file_Write f (index_bytes index) in
        (* the checksum of everything, appended *)
        let '(f, sz) := file_SeekEnd f in
        let ck := sha256 (take (Z.to_nat sz) (data f)) in
        let f := file_Write f ck in
        done f None
    end
  end.

Definition set_once (cdb : Writer) : Writer :=
  {| writer := writer cdb; entries := entries cdb; finalizeOnce := true;
     bufferedWriter := bufferedWriter cdb; bufferedOffset := bufferedOffset cdb;
     estimatedFooterSize := estimatedFooterSize cdb |}.

Definition set_writer (cdb : Writer) (f : File) : Writer :=
  {| writer := f; entries := entries cdb; finalizeOnce := finalizeOnce cdb;
     bufferedWriter := bufferedWriter cdb; bufferedOffset := bufferedOffset cdb;
     estimatedFooterSize := estimatedFooterSize cdb |}.

(** [cdb.finalizeOnce.Do(func() { index, err = cdb.finalize() })]: the
    function runs unless the flag is set, and the flag is set when it
    returns; otherwise [index] and [err] keep their zero values. *)
Definition finalize_once (cdb : Writer) : outcome (Writer * list table * option error) :=
  if finalizeOnce cdb then Returns (cdb, index0, None)
  else
    r ← finalize cdb;
    let '(cdb, index, err) := r in
    Returns (set_once cdb, index, err).

(** [Close] *)
Definition Close (cdb : Writer) : outcome (Writer * option error) :=
  r ← finalize_once cdb;
  let '(cdb, _, err) := r in
  match err with
  | Some e => Returns (cdb, Some e)
  | None =>
    let '(f, err) := file_Close (writer cdb) in
    Returns (set_writer cdb f, err)
  end.

(** [Freeze] *)
Definition Freeze (cdb : Writer) : outcome (Writer * result CDB) :=
  r ← finalize_once cdb;
  let '(cdb, index, err) := r in
  match err with
  | Some e => Returns (cdb, Err e)
  | None => Returns (cdb, Ok {| reader := writer cdb; index := index |})
  end.

(** ** The reader *)

(** [verifyChecksum]: the last 32 bytes are the SHA-256 of what precedes
    them. The file is left rewound. *)
Definition verifyChecksum (f : File) : File * option error :=
  if closed f then (f, Some ErrClosed)
  else
    let sz := len (data f) in
    if sz <? 2048 + sha256_Size then (f, Some ErrTooSmall)
    else
      let datasz := sz - sha256_Size in
      let f := file_Seek f datasz in
      let eck := take (Z.to_nat sha256_Size) (drop (Z.to_nat (pos f)) (data f)) in
      let f := file_Seek f (pos f + len eck) in
      let ck := sha256 (take (Z.to_nat datasz) (data f)) in
      (* subtle.ConstantTimeCompare *)
      if negb (bool_decide (eck = ck)) then (f, Some ErrChecksum)
      else (file_Seek f 0, None).

(** [readIndex] *)
Definition readIndex (r : File) : result (list table) :=
  match ReadAt r indexSize 0 with
  | Err e => Err e
  | Ok buf =>
    Ok (map (fun i : nat =>
               let off := (i * 8)%nat in
               {| table_offset := Uint32 (take 4 (drop off buf));
                  table_length := Uint32 (take 4 (drop (off + 4) buf)) |})
            (seq 0 256))
  end.

(** [New] *)
Definition New (r : File) : result CDB :=
  match readIndex r with
  | Err e => Err e
  | Ok index => Ok {| reader := r; index := index |}
  end.

(** [Open], on the file found at the path: [New] after the checksum has
    been verified, with the hash function of the development. *)
Definition Open (f : File) : result CDB :=
  match verifyChecksum f with
  | (_, Some e) => Err e
  | (f, None) => New f
  end.

(** [getValueAt]: [None] is the nil slice. *)
Definition getValueAt (cdb : CDB) (offset : Z) (expectedKey : bytes)
  : outcome (result (option bytes)) :=
  match readTuple (reader cdb) offset with
  | Err e => Returns (Err e)
  | Ok (keyLength, valueLength) =>
    if negb (keyLength =? len expectedKey) then Returns (Ok None)
    else
      let n := uint32 (keyLength + valueLength) in
      match ReadAt (reader cdb) n (uint32 (offset + 8)) with
      | Err e => Returns (Err e)
      | Ok buf =>
        if n <? keyLength then Panics
        else if negb (bool_decide (take (Z.to_nat keyLength) buf = expectedKey))
        then Returns (Ok None)
        else Returns (Ok (Some (drop (Z.to_nat keyLength) buf)))
      end
  end.

(** The probing loop of [Get]; [revs] bounds the slots examined. *)
Fixpoint Get_loop (revs : nat) (cdb : CDB) (key : bytes) (hash : Z) (t : table)
    (startingSlot slot : Z) : outcome (result (option bytes)) :=
  match revs with
  | O => Spins
  | S revs' =>
    let slotOffset := uint32 (table_offset t + uint32 (8 * slot)) in
    match readTuple (reader cdb) slotOffset with
    | Err e => Returns (Err e)
    | Ok (slotHash, offset) =>
      let next (_ : unit) :=
        let slot := uint32 (slot + 1) mod table_length t in
        if slot =? startingSlot then Returns (Ok None)
        else Get_loop revs' cdb key hash t startingSlot slot in
      if slotHash =? 0 then Returns (Ok None)
      else if slotHash =? hash then
        r ← getValueAt cdb offset key;
        match r with
        | Err e => Returns (Err e)
        | Ok (Some value) => Returns (Ok (Some value))
        | Ok None => next tt
        end
      else next tt
    end
  end.

(** [Get], given [revs] slots to examine. *)
Definition Get_within (revs : nat) (cdb : CDB) (key : bytes)
  : outcome (result (option bytes)) :=
  let hash := hash_of key in
  match index cdb !! Z.to_nat (Z.land hash 0xff) with
  | None => Panics
  | Some t =>
    if table_length t =? 0 then Returns (Ok None)
    else
      let startingSlot := Z.shiftr hash 8 mod table_length t in
      Get_loop revs cdb key hash t startingSlot startingSlot
  end.

(** [Get]: one revolution of the table is all the loop can make. *)
Definition Get (cdb : CDB) (key : bytes) : outcome (result (option bytes)) :=
  let hash := hash_of key in
  match index cdb !! Z.to_nat (Z.land hash 0xff) with
  | None => Panics
  | Some t => Get_within (Z.to_nat (table_length t)) cdb key
  end.

(** A run of [Put]s that all return nil. *)
Fixpoint Puts (cdb : Writer) (kvs : list (bytes * bytes)) : option Writer :=
  match kvs with
  | [] => Some cdb
  | (key, value) :: rest =>
    match Put cdb key value with
    | Returns (cdb', None) => Puts cdb' rest
    | _ => None
    end
  end.

(** ** The database a run of [Put]s leads to

    The content of the file described piece by piece, to compare with what
    the writer produces and to reason about what the reader finds. *)

(** A record as it lies in the file. *)
Definition record (key value : bytes) : bytes :=
  writeTuple (len key) (len value) ++ key ++ value.

Fixpoint records (kvs : list (bytes * bytes)) : bytes :=
  match kvs with
  | [] => []
  | (key, value) :: rest => record key value ++ records rest
  end.

(** The hash entries of a run of [Put]s, in the order of the calls; the
    first record starts at [off]. *)
Fixpoint entry_log (off : Z) (kvs : list (bytes * bytes)) : list entry :=
  match kvs with
  | [] => []
  | (key, value) :: rest =>
    mkEntry (hash_of key) off :: entry_log (off + (8 + len key + len value)) rest
  end.

Definition bucket_of (e : entry) : nat := Z.to_nat (Z.land (entry_hash e) 0xff).

(** The entries of bucket [b], in insertion order. *)
Definition bucket (b : nat) (log : list entry) : list entry :=
  filter (fun e => bucket_of e = b) log.

Definition buckets (log : list entry) : list (list entry) :=
  map (fun b => bucket b log) (seq 0 256).

(** The bytes of all sub-tables: 16 for every entry. *)
Fixpoint tables_size (ents : list (list entry)) : Z :=
  match ents with
  | [] => 0
  | es :: rest => 16 * len es + tables_size rest
  end.

(** The directory of sub-tables laid out back to back from [off]. *)
Fixpoint directory (off : Z) (ents : list (list entry)) : list table :=
  match ents with
  | [] => []
  | es :: rest => mkTable off (2 * len es) :: directory (off + 16 * len es) rest
  end.

(** The sub-table the placement loop builds for a bucket. *)
Definition sorted_of (es : list entry) : list entry :=
  match sort_table es with
  | (_, Returns sorted) => sorted
  | _ => []
  end.

(** The slots of a sub-table in array order. *)
Definition slots_bytes (sorted : list entry) : bytes :=
  concat (map (fun e => writeTuple (entry_hash e) (entry_offset e)) sorted).

Definition tables_bytes (ents : list (list entry)) : bytes :=
  concat (map (fun es => slots_bytes (sorted_of es)) ents).

(** The file before its trailer, and the whole file. *)
Definition database_body (kvs : list (bytes * bytes)) : bytes :=
  let ents := buckets (entry_log indexSize kvs) in
  index_bytes (directory (indexSize + len (records kvs)) ents)
    ++ records kvs ++ tables_bytes ents.

Definition database (kvs : list (bytes * bytes)) : bytes :=
  database_body kvs ++ sha256 (database_body kvs).

(** What the one-shot guard is there for: a run of [Close]s and [Freeze]s. *)
Inductive finish : Type := DoClose | DoFreeze.

Definition finish_with (cdb : Writer) (op : finish) : outcome Writer :=
  match op with
  | DoClose => r ← Close cdb; Returns r.1
  | DoFreeze => r ← Freeze cdb; Returns r.1
  end.

Fixpoint finish_all (cdb : Writer) (ops : list finish) : outcome Writer :=
  match ops with
  | [] => Returns cdb
  | op :: rest => cdb' ← finish_with cdb op; finish_all cdb' rest
  end.

(** ** The placement of section 4.4 of the specification

    A second description of a sub-table, by the words of the specification:
    the probe sequence of an entry is the [m] slots from [(hash >> 8) mod m]
    on, wrapping around, and the entry goes to the first of them that is
    empty. What "empty" means is a parameter. *)

Definition probe_sequence (m : nat) (e : entry) : list nat :=
  map (fun k => Z.to_nat ((Z.shiftr (entry_hash e) 8 mod Z.of_nat m + Z.of_nat k)
                           mod Z.of_nat m))
      (seq 0 m).

Definition spec_place (empty : entry -> bool) (slots : list entry) (e : entry)
  : list entry :=
  match List.find (fun s => match slots !! s with
                            | Some x => empty x
                            | None => false
                            end)
                  (probe_sequence (length slots) e) with
  | Some s => <[s := e]> slots
  | None => slots
  end.

Definition spec_subtable (empty : entry -> bool) (es : list entry) : list entry :=
  fold_left (spec_place empty) es (replicate (2 * length es) entry0).

(** Empty as the specification defines it: the zero-valued slot
    [(hash=0, offset=0)]. *)
Definition zero_valued (x : entry) : bool :=
  (entry_hash x =? 0) && (entry_offset x =? 0).

(** Empty as [finalize] tests it: the stored hash is zero. *)
Definition zero_hash (x : entry) : bool := entry_hash x =? 0.

(** ** Where the code is used

    The counters of a [Writer] as the guard of [Put] keeps them. *)
Definition within_limit (cdb : Writer) : Prop :=
  0 <= bufferedOffset cdb /\ 0 <= estimatedFooterSize cdb /\
  bufferedOffset cdb + estimatedFooterSize cdb <= MaxUint32.

(** The counters of a [Writer] hold what a [uint32] holds; so they do when
    they are within the limit, and still after [finalize]. *)
Definition counters_fit (cdb : Writer) : Prop :=
  is_uint32 (bufferedOffset cdb) /\ is_uint32 (estimatedFooterSize cdb).

(** Key and value are slices in memory: their lengths add up within [int]. *)
Definition fits (kv : bytes * bytes) : Prop := len kv.1 + len kv.2 < 2 ^ 62.

(** The bucket number of a key, [hash & 0xff]. *)
Definition table_of (key : bytes) : nat := Z.to_nat (Z.land (hash_of key) 0xff).

(** ** Probing

    The slot reached from [s] after [k] steps around a table of [m] slots. *)
Definition slot_at (m s : Z) (k : nat) : nat := Z.to_nat ((s + Z.of_nat k) mod m).

(** The slot where an entry starts, [(hash >> 8) % m]. *)
Definition start_slot (m : Z) (h : Z) : Z := Z.shiftr h 8 mod m.

(** The [k]-th slot from [s] holds a zero hash and none before it does. *)
Definition first_free (sorted : list entry) (m s : Z) (k : nat) : Prop :=
  (exists x, sorted !! slot_at m s k = Some x /\ entry_hash x = 0) /\
  forall j, (j < k)%nat -> exists x, sorted !! slot_at m s j = Some x /\ entry_hash x <> 0.

(** The entry lies [k] steps from its starting slot, behind slots that all
    hold a hash other than zero: where a probe for its hash comes by. *)
Definition findable (sorted : list entry) (m : Z) (e : entry) : Prop :=
  exists k, (k < Z.to_nat m)%nat /\
    sorted !! slot_at m (start_slot m (entry_hash e)) k = Some e /\
    forall j, (j < k)%nat ->
      exists x, sorted !! slot_at m (start_slot m (entry_hash e)) j = Some x
                /\ entry_hash x <> 0.

(** The slots that count as taken. *)
Definition occupied (sorted : list entry) : nat :=
  length (filter (fun x => entry_hash x <> 0) sorted).

(** A sub-table of [m] slots in which [placed] have been placed. *)
Record table_ok (m : Z) (placed sorted : list entry) : Prop := {
  ok_length : length sorted = Z.to_nat m;
  ok_placed : forall i x, sorted !! i = Some x -> x = entry0 \/ x ∈ placed;
  ok_findable : forall e, e ∈ placed -> entry_hash e <> 0 -> findable sorted m e;
  ok_occupied : (occupied sorted <= length placed)%nat
}.

(** The [Writer] after [Create] and a run of successful [Put]s. *)
Definition written (kvs : list (bytes * bytes)) : Writer :=
  {| writer := mkFile (replicate 2048 Byte.x00) 2048 false;
     entries := buckets (entry_log indexSize kvs);
     finalizeOnce := false;
     bufferedWriter := Some (records kvs);
     bufferedOffset := indexSize + len (records kvs);
     estimatedFooterSize := 16 * len kvs |}.

(** ** The way of a probe for a key

    The starting slot, the slot [j] steps on, the offset read there, the
    loop of [Get] from there, and what the loop does past a slot. *)
Definition start_of (t : table) (key : bytes) : Z :=
  start_slot (table_length t) (hash_of key).

Definition way (t : table) (key : bytes) (j : nat) : nat :=
  slot_at (table_length t) (start_of t key) j.

Definition slot_offset (t : table) (key : bytes) (j : nat) : Z :=
  uint32 (table_offset t + uint32 (8 * Z.of_nat (way t key j))).

Definition Get_from (revs : nat) (cdb : CDB) (key : bytes) (t : table) (j : nat)
  : outcome (result (option bytes)) :=
  Get_loop revs cdb key (hash_of key) t (start_of t key) (Z.of_nat (way t key j)).

Definition Get_after (revs : nat) (cdb : CDB) (key : bytes) (t : table) (j : nat)
  : outcome (result (option bytes)) :=
  if bool_decide (S j = Z.to_nat (table_length t)) then Returns (Ok None)
  else Get_from revs cdb key t (S j).

(** The file as [os.Open] finds it once the writer has closed it. *)
Definition reopened (cdb : Writer) : File := mkFile (data (writer cdb)) 0 false.

(** The entry stands for the record of [key] and [value], which lies at its
    offset among the records that start at [off]. *)
Definition stored (recs : bytes) (off : Z) (e : entry) (key value : bytes) : Prop :=
  entry_hash e = hash_of key /\
  exists pre post, recs = pre ++ record key value ++ post /\ entry_offset e = off + len pre.

(** A reader on the database of [kvs]. *)
Record serves (kvs : list (bytes * bytes)) (cdb : CDB) : Prop := {
  serves_open : closed (reader cdb) = false;
  serves_data : data (reader cdb) = database kvs;
  serves_index : index cdb = directory (indexSize + len (records kvs))
                               (buckets (entry_log indexSize kvs))
}.

(** The database of [kvs] is below the limit of [Put]. *)
Record sized (kvs : list (bytes * bytes)) : Prop := {
  sized_tables : tables_size (buckets (entry_log indexSize kvs)) = 16 * len kvs;
  sized_limit : indexSize + len (records kvs) + 16 * len kvs <= MaxUint32
}.

(** ** More of the package *)

(** [CDB.Close]: the reader of [Open] and of [Freeze] is a file, which is an
    [io.Closer]. *)
Definition CDB_Close (cdb : CDB) : CDB * option error :=
  let '(f, err) := file_Close (reader cdb) in
  ({| reader := f; index := index cdb |}, err).

(** Every entry that was placed and has a hash other than zero lies on its
    way behind entries that were placed before it. *)
Definition found_first (m : Z) (placed sorted : list entry) : Prop :=
  forall i e, placed !! i = Some e -> entry_hash e <> 0 ->
  exists k, (k < Z.to_nat m)%nat /\
    sorted !! slot_at m (start_slot m (entry_hash e)) k = Some e /\
    forall j, (j < k)%nat ->
      exists x i', sorted !! slot_at m (start_slot m (entry_hash e)) j = Some x
                   /\ entry_hash x <> 0 /\ (i' < i)%nat /\ placed !! i' = Some x.

(** * Properties *)

Ltac fields :=
  cbn [writer entries finalizeOnce bufferedWriter bufferedOffset estimatedFooterSize
       data pos closed reader index fst snd] in *.

(** ** Arithmetic and codec *)

#[global] Instance Ok_inj {A} : Inj (=) (=) (@Ok A).
Proof. intros x y H. now inversion H. Qed.

Lemma uint32_small z : 0 <= z <= MaxUint32 -> uint32 z = z.
Proof. unfold uint32, MaxUint32. intros. apply Z.mod_small. lia. Qed.

Lemma uint32_range z : 0 <= uint32 z <= MaxUint32.
Proof.
  unfold uint32, MaxUint32.
  pose proof (Z.mod_pos_bound z (2 ^ 32) ltac:(lia)). lia.
Qed.

Lemma int64_small z : - 2 ^ 63 <= z < 2 ^ 63 -> int64 z = z.
Proof. unfold int64. intros. rewrite Z.mod_small; lia. Qed.

Lemma len_app {A} (l k : list A) : len (l ++ k) = len l + len k.
Proof. unfold len. rewrite length_app. lia. Qed.

Lemma len_nonneg {A} (l : list A) : 0 <= len l.
Proof. unfold len. lia. Qed.

Lemma len_PutUint32 v : len (PutUint32 v) = 4.
Proof. unfold len, PutUint32. now rewrite length_le_split. Qed.

Lemma len_writeTuple a b : len (writeTuple a b) = 8.
Proof. unfold writeTuple. rewrite len_app, !len_PutUint32. lia. Qed.

Lemma length_writeTuple a b : length (writeTuple a b) = 8%nat.
Proof. pose proof (len_writeTuple a b). unfold len in *. lia. Qed.

Lemma Uint32_PutUint32 v : Uint32 (PutUint32 v) = uint32 v.
Proof. unfold Uint32, PutUint32, uint32. now rewrite le_combine_split. Qed.

Lemma take_writeTuple a b : take 4 (writeTuple a b) = PutUint32 a.
Proof.
  unfold writeTuple. rewrite take_app_length'; [done|].
  unfold PutUint32. now rewrite length_le_split.
Qed.

Lemma drop_writeTuple a b : drop 4 (writeTuple a b) = PutUint32 b.
Proof.
  unfold writeTuple. rewrite drop_app_length'; [done|].
  unfold PutUint32. now rewrite length_le_split.
Qed.

(** ** Reading a file whose content is known in pieces *)

Lemma ReadAt_middle f a b c n off :
  closed f = false -> data f = a ++ b ++ c -> off = len a -> n = len b ->
  ReadAt f n off = Ok b.
Proof.
  intros Hc Hd -> ->. unfold ReadAt. rewrite Hc, Hd.
  destruct (len b =? 0) eqn:Hb.
  - apply Z.eqb_eq in Hb. destruct b; [done | unfold len in Hb; simpl in Hb; lia].
  - rewrite !len_app.
    destruct (Z.leb_spec (len a + len b) (len a + (len b + len c)));
      [| pose proof (len_nonneg c); lia].
    unfold len. rewrite !Nat2Z.id.
    rewrite drop_app_length, take_app_length. done.
Qed.

Lemma readTuple_middle f a x y c off :
  closed f = false -> data f = a ++ writeTuple x y ++ c -> off = len a ->
  readTuple f off = Ok (uint32 x, uint32 y).
Proof.
  intros Hc Hd ->. unfold readTuple.
  rewrite (ReadAt_middle f a (writeTuple x y) c) by (try done; now rewrite len_writeTuple).
  rewrite take_writeTuple, drop_writeTuple, !Uint32_PutUint32. done.
Qed.

(** ** [Put] *)

Lemma hash_of_range key : 0 <= hash_of key <= MaxUint32.
Proof. apply uint32_range. Qed.

Lemma land_0xff_range h : 0 <= Z.land h 0xff < 256.
Proof.
  change 0xff with (Z.ones 8). rewrite Z.land_ones by lia.
  apply Z.mod_pos_bound. lia.
Qed.

Lemma bucket_of_lt e : (bucket_of e < 256)%nat.
Proof. unfold bucket_of. pose proof (land_0xff_range (entry_hash e)). lia. Qed.

Lemma table_of_lt key : (table_of key < 256)%nat.
Proof. unfold table_of. pose proof (land_0xff_range (hash_of key)). lia. Qed.

Lemma within_limit_counters cdb : within_limit cdb -> counters_fit cdb.
Proof. unfold within_limit, counters_fit, is_uint32. lia. Qed.

Lemma Put_guard cdb key value :
  counters_fit cdb -> fits (key, value) ->
  int64 (int64 (int64 (bufferedOffset cdb + int64 (int64 (8 + len key) + len value))
                + estimatedFooterSize cdb) + 16)
  = bufferedOffset cdb + 8 + len key + len value + estimatedFooterSize cdb + 16.
Proof.
  unfold counters_fit, is_uint32, fits, MaxUint32. simpl fst; simpl snd.
  intros ((? & ?) & ? & ?) ?.
  pose proof (len_nonneg key). pose proof (len_nonneg value).
  rewrite (int64_small (8 + len key)) by lia.
  rewrite (int64_small (8 + len key + len value)) by lia.
  rewrite (int64_small (bufferedOffset cdb + _)) by lia.
  rewrite (int64_small (bufferedOffset cdb + _ + _)) by lia.
  rewrite int64_small by lia. lia.
Qed.

Lemma Put_rejects cdb key value :
  counters_fit cdb -> fits (key, value) ->
  bufferedOffset cdb + 8 + len key + len value + estimatedFooterSize cdb + 16 > MaxUint32 ->
  Put cdb key value = Returns (cdb, Some ErrTooMuchData).
Proof.
  intros Hw Hf Hbig. unfold Put. rewrite Put_guard by done.
  destruct (Z.gtb_spec (bufferedOffset cdb + 8 + len key + len value
                        + estimatedFooterSize cdb + 16) MaxUint32); [done | lia].
Qed.

Lemma Put_accepts cdb key value buf es :
  within_limit cdb -> fits (key, value) ->
  bufferedOffset cdb + 8 + len key + len value + estimatedFooterSize cdb + 16 <= MaxUint32 ->
  bufferedWriter cdb = Some buf ->
  entries cdb !! table_of key = Some es ->
  Put cdb key value =
  Returns ({| writer := writer cdb;
              entries := <[table_of key :=
                             es ++ [mkEntry (hash_of key) (bufferedOffset cdb)]]> (entries cdb);
              finalizeOnce := finalizeOnce cdb;
              bufferedWriter := Some (buf ++ record key value);
              bufferedOffset := bufferedOffset cdb + (8 + len key + len value);
              estimatedFooterSize := estimatedFooterSize cdb + 16 |}, None).
Proof.
  intros Hw Hf Hsmall Hbuf Hes. unfold Put.
  rewrite Put_guard by (try done; apply within_limit_counters; done).
  destruct (Z.gtb_spec (bufferedOffset cdb + 8 + len key + len value
                        + estimatedFooterSize cdb + 16) MaxUint32); [lia |].
  fold (table_of key). rewrite Hes, Hbuf.
  destruct Hw as (? & ? & ?). unfold fits in Hf. simpl in Hf.
  pose proof (len_nonneg key). pose proof (len_nonneg value).
  unfold MaxUint32 in *.
  rewrite (uint32_small (bufferedOffset cdb)) by (unfold MaxUint32; lia).
  rewrite (uint32_small (len key)) by (unfold MaxUint32; lia).
  rewrite (uint32_small (len value)) by (unfold MaxUint32; lia).
  rewrite (int64_small (8 + len key)) by lia.
  rewrite (int64_small (8 + len key + len value)) by lia.
  rewrite !int64_small by lia.
  unfold record. rewrite <- !app_assoc.
  do 4 f_equal; try lia.
Qed.

(** [Put] has two ways to return; both are known. *)
Lemma Put_returns cdb key value cdb' err :
  within_limit cdb -> fits (key, value) ->
  Put cdb key value = Returns (cdb', err) ->
  (err = Some ErrTooMuchData /\ cdb' = cdb /\
   bufferedOffset cdb + 8 + len key + len value + estimatedFooterSize cdb + 16 > MaxUint32)
  \/ (err = None /\
      bufferedOffset cdb + 8 + len key + len value + estimatedFooterSize cdb + 16 <= MaxUint32 /\
      exists buf es, bufferedWriter cdb = Some buf /\ entries cdb !! table_of key = Some es).
Proof.
  intros Hw Hf HP.
  destruct (Z.le_gt_cases
              (bufferedOffset cdb + 8 + len key + len value + estimatedFooterSize cdb + 16)
              MaxUint32) as [Hle | Hgt].
  - right. unfold Put in HP.
    rewrite Put_guard in HP by (try done; apply within_limit_counters; done).
    destruct (Z.gtb_spec (bufferedOffset cdb + 8 + len key + len value
                          + estimatedFooterSize cdb + 16) MaxUint32); [lia |].
    fold (table_of key) in HP.
    destruct (entries cdb !! table_of key) as [es |]; [| done].
    destruct (bufferedWriter cdb) as [buf |]; [| done].
    inversion HP; subst. eauto 10.
  - left. rewrite Put_rejects in HP
      by (try done; try lia; apply within_limit_counters; done).
    inversion HP; subst.
    repeat split; try done; lia.
Qed.

Lemma tables_size_insert ents i es e :
  ents !! i = Some es ->
  tables_size (<[i := es ++ [e]]> ents) = tables_size ents + 16.
Proof.
  revert i. induction ents as [| x ents IH]; intros [| i] H; simpl in *; try done.
  - inversion H; subst. rewrite len_app. unfold len. simpl. lia.
  - rewrite (IH i) by done. lia.
Qed.

Lemma tables_size_replicate n : tables_size (replicate n []) = 0.
Proof. induction n; simpl; [done | rewrite IHn; done]. Qed.

Lemma bucket_cons b log e :
  bucket b (e :: log) = (if decide (bucket_of e = b) then [e] else []) ++ bucket b log.
Proof.
  unfold bucket. rewrite filter_cons. destruct (decide (bucket_of e = b)); done.
Qed.

Lemma len_records_cons key value rest :
  len (records ((key, value) :: rest)) = 8 + len key + len value + len (records rest).
Proof. cbn [records]. unfold record. rewrite !len_app, len_writeTuple. lia. Qed.

(** What a run of successful [Put]s leaves in the [Writer]. *)
Lemma Puts_state kvs : forall cdb cdb' buf,
  within_limit cdb -> length (entries cdb) = 256%nat ->
  bufferedWriter cdb = Some buf -> Forall fits kvs ->
  Puts cdb kvs = Some cdb' ->
  within_limit cdb' /\ writer cdb' = writer cdb /\ finalizeOnce cdb' = finalizeOnce cdb
  /\ bufferedWriter cdb' = Some (buf ++ records kvs)
  /\ bufferedOffset cdb' = bufferedOffset cdb + len (records kvs)
  /\ estimatedFooterSize cdb' = estimatedFooterSize cdb + 16 * len kvs
  /\ length (entries cdb') = 256%nat
  /\ tables_size (entries cdb') = tables_size (entries cdb) + 16 * len kvs
  /\ forall b es, entries cdb !! b = Some es ->
       entries cdb' !! b = Some (es ++ bucket b (entry_log (bufferedOffset cdb) kvs)).
Proof.
  induction kvs as [| [key value] rest IH]; intros cdb cdb' buf Hw Hl Hb Hf HP.
  - simpl in HP. inversion HP; subst. rewrite app_nil_r.
    unfold len; simpl. repeat split; try done; try lia; try apply Hw.
    intros b es H. now rewrite app_nil_r.
  - inversion Hf as [| ? ? Hf1 Hf2]; subst.
    simpl in HP. destruct (Put cdb key value) as [[cdb1 [e |]] | |] eqn:HPut; try done.
    destruct (Put_returns _ _ _ _ _ Hw Hf1 HPut) as [(? & _) | (_ & Hle & buf' & es & Hb' & Hes)];
      [done |].
    rewrite Hb in Hb'. inversion Hb'; subst buf'.
    rewrite (Put_accepts _ _ _ _ _ Hw Hf1 Hle Hb Hes) in HPut.
    inversion HPut; subst cdb1; clear HPut.
    pose proof (len_nonneg key). pose proof (len_nonneg value).
    eapply IH in HP; [| | | simpl; reflexivity | done].
    + simpl in HP.
      destruct HP as (Hw' & Hwr & Hfo & Hbw & Hoff & Hft & Hlen & Hts & Hent).
      rewrite len_records_cons.
      repeat split; try done; try apply Hw'.
      * rewrite Hbw. cbn [records]. now rewrite <- app_assoc.
      * lia.
      * rewrite Hft. unfold len; simpl. lia.
      * rewrite Hts, (tables_size_insert _ _ _ _ Hes). unfold len; simpl. lia.
      * intros b es0 Hes0. simpl. rewrite bucket_cons.
        destruct (decide (table_of key = b)) as [<- | Hne].
        -- rewrite Hes in Hes0. inversion Hes0; subst es0.
           rewrite (Hent (table_of key) (es ++ [mkEntry (hash_of key) (bufferedOffset cdb)])).
           ++ unfold bucket_of, table_of. simpl.
              rewrite decide_True by done. now rewrite <- app_assoc.
           ++ apply list_lookup_insert_eq. apply lookup_lt_Some in Hes. done.
        -- rewrite (Hent b es0).
           ++ unfold bucket_of at 1. simpl. fold (table_of key).
              rewrite decide_False by done. done.
           ++ rewrite list_lookup_insert_ne by done. done.
    + destruct Hw as (? & ? & ?). unfold within_limit. simpl. lia.
    + simpl. now rewrite length_insert.
Qed.

(** ** The placement loop *)

Lemma slot_at_0 m s : 0 <= s < m -> slot_at m s 0 = Z.to_nat s.
Proof. intros. unfold slot_at. rewrite Z.add_0_r, Z.mod_small by lia. done. Qed.

Lemma slot_at_lt m s k : 0 < m -> (slot_at m s k < Z.to_nat m)%nat.
Proof.
  intros. unfold slot_at.
  pose proof (Z.mod_pos_bound (s + Z.of_nat k) m ltac:(lia)). lia.
Qed.

Lemma slot_at_next m s k :
  0 < m -> slot_at m ((s + 1) mod m) k = slot_at m s (S k).
Proof.
  intros. unfold slot_at. f_equal.
  rewrite Zplus_mod_idemp_l. f_equal. lia.
Qed.

(** Within one revolution, different distances are different slots. *)
Lemma slot_at_inj m s j k :
  0 < m -> (j < Z.to_nat m)%nat -> (k < Z.to_nat m)%nat ->
  slot_at m s j = slot_at m s k -> j = k.
Proof.
  intros Hm Hj Hk H. unfold slot_at in H.
  pose proof (Z.mod_pos_bound (s + Z.of_nat j) m ltac:(lia)).
  pose proof (Z.mod_pos_bound (s + Z.of_nat k) m ltac:(lia)).
  apply Z2Nat.inj in H; [| lia | lia].
  assert (Hd : (Z.of_nat j - Z.of_nat k) mod m = 0).
  { replace (Z.of_nat j - Z.of_nat k) with ((s + Z.of_nat j) - (s + Z.of_nat k)) by lia.
    rewrite Zminus_mod, H, Z.sub_diag. apply Z.mod_0_l. lia. }
  apply Z.mod_divide in Hd; [| lia]. destruct Hd as [q Hq].
  assert (q = 0) by nia. lia.
Qed.

(** Every slot lies within one revolution of every other. *)
Lemma slot_at_reach m s i :
  0 < m -> (i < Z.to_nat m)%nat ->
  exists d, (d < Z.to_nat m)%nat /\ slot_at m s d = i.
Proof.
  intros Hm Hi. exists (Z.to_nat ((Z.of_nat i - s) mod m)).
  pose proof (Z.mod_pos_bound (Z.of_nat i - s) m ltac:(lia)).
  split; [lia |]. unfold slot_at. rewrite Z2Nat.id by lia.
  rewrite Zplus_mod_idemp_r.
  replace (s + (Z.of_nat i - s)) with (Z.of_nat i) by lia.
  rewrite Z.mod_small by lia. lia.
Qed.

Lemma next_slot m s :
  0 < m <= MaxUint32 -> 0 <= s < m -> uint32 (s + 1) mod m = (s + 1) mod m.
Proof. intros. rewrite uint32_small by lia. done. Qed.

(** The loop stops at the first zero hash on its way, if there is one
    within the revolutions it has. *)
Lemma probe_first_free e m sorted : forall d revs s,
  0 < m <= MaxUint32 -> length sorted = Z.to_nat m -> 0 <= s < m ->
  (d < revs)%nat ->
  (exists x, sorted !! slot_at m s d = Some x /\ entry_hash x = 0) ->
  exists k, (k <= d)%nat /\ first_free sorted m s k /\
    probe revs sorted m s e = Returns (<[slot_at m s k := e]> sorted).
Proof.
  induction d as [| d IH]; intros revs s Hm Hlen Hs Hrevs (x & Hx & Hx0).
  - exists 0%nat. rewrite slot_at_0 in * by done.
    split; [lia |]. split.
    + split; [rewrite slot_at_0 by done; eauto | lia].
    + destruct revs as [| revs]; [lia |]. simpl. rewrite Hx.
      apply Z.eqb_eq in Hx0. rewrite Hx0. done.
  - destruct revs as [| revs]; [lia |].
    destruct (lookup_lt_is_Some_2 sorted (Z.to_nat s)) as [y Hy]; [lia |].
    destruct (Z.eq_dec (entry_hash y) 0) as [Hy0 | Hy0].
    + exists 0%nat. split; [lia |]. split.
      * split; [rewrite slot_at_0 by done; eauto | lia].
      * rewrite slot_at_0 by done. simpl. rewrite Hy.
        apply Z.eqb_eq in Hy0. rewrite Hy0. done.
    + destruct (IH revs ((s + 1) mod m)) as (k & Hk & (Hfree & Hbefore) & Hprobe);
        try done.
      * apply Z.mod_pos_bound. lia.
      * lia.
      * rewrite slot_at_next by lia. eauto.
      * exists (S k). split; [lia |]. split.
        -- split.
           ++ rewrite <- slot_at_next by lia. done.
           ++ intros [| j] Hj.
              ** rewrite slot_at_0 by done. eauto.
              ** rewrite <- slot_at_next by lia. apply Hbefore. lia.
        -- simpl. rewrite Hy. apply Z.eqb_neq in Hy0. rewrite Hy0.
           rewrite next_slot by done. rewrite Hprobe.
           rewrite slot_at_next by lia. done.
Qed.

Lemma occupied_replicate n : occupied (replicate n entry0) = 0%nat.
Proof.
  unfold occupied. induction n; simpl; [done |].
  rewrite filter_cons_False; [done |]. simpl. intros H; apply H; done.
Qed.

Lemma occupied_insert sorted i x e :
  sorted !! i = Some x -> entry_hash x = 0 ->
  (occupied (<[i := e]> sorted) <= S (occupied sorted))%nat.
Proof.
  unfold occupied. revert i. induction sorted as [| y sorted IH]; intros [| i] H Hx;
    simpl in *; try done.
  - inversion H; subst y. rewrite !filter_cons.
    rewrite (decide_False (P := entry_hash x <> 0)) by (intros H'; apply H'; done).
    destruct (decide (entry_hash e <> 0)); simpl; lia.
  - rewrite !filter_cons. specialize (IH i H Hx).
    destruct (decide (entry_hash y <> 0)); simpl; lia.
Qed.

Lemma free_slot_exists sorted :
  (occupied sorted < length sorted)%nat ->
  exists i x, sorted !! i = Some x /\ entry_hash x = 0.
Proof.
  unfold occupied. induction sorted as [| y sorted IH]; simpl; [lia |].
  rewrite filter_cons. destruct (decide (entry_hash y <> 0)) as [Hy | Hy]; simpl; intros H.
  - destruct IH as (i & x & Hi & Hx); [lia |]. exists (S i), x. done.
  - exists 0%nat, y. split; [done |]. destruct (Z.eq_dec (entry_hash y) 0); [done | tauto].
Qed.

(** A revolution that meets no zero hash is followed by another: the loop
    that has not returned within one revolution never returns. *)
Lemma probe_spins_for_ever e m sorted s :
  0 < m <= MaxUint32 -> length sorted = Z.to_nat m -> 0 <= s < m ->
  probe (Z.to_nat m) sorted m s e = Spins ->
  forall revs, probe revs sorted m s e = Spins.
Proof.
  intros Hm Hlen Hs Hspin.
  assert (Hall : forall i x, sorted !! i = Some x -> entry_hash x <> 0).
  { intros i x Hx Hx0.
    destruct (slot_at_reach m s i) as (d & Hd & Hdi); [lia | |].
    { apply lookup_lt_Some in Hx. lia. }
    destruct (probe_first_free e m sorted d (Z.to_nat m) s) as (k & _ & _ & Hp);
      try done.
    - rewrite Hdi. eauto.
    - rewrite Hp in Hspin. done. }
  intros revs. clear Hspin. revert s Hs.
  induction revs as [| revs IH]; intros s Hs; [done |].
  destruct (lookup_lt_is_Some_2 sorted (Z.to_nat s)) as [x Hx]; [lia |].
  cbn [probe]. rewrite Hx.
  pose proof (Hall _ _ Hx) as Hne. apply Z.eqb_neq in Hne. rewrite Hne.
  apply IH. rewrite uint32_small by lia. apply Z.mod_pos_bound. lia.
Qed.

(** With a free slot in the table the loop returns, having stored the entry
    in the first free slot on its way. *)
Lemma probe_returns e m sorted s :
  0 < m <= MaxUint32 -> length sorted = Z.to_nat m -> 0 <= s < m ->
  (occupied sorted < length sorted)%nat ->
  exists k, (k < Z.to_nat m)%nat /\ first_free sorted m s k /\
    probe (Z.to_nat m) sorted m s e = Returns (<[slot_at m s k := e]> sorted).
Proof.
  intros Hm Hlen Hs Hocc.
  destruct (free_slot_exists _ Hocc) as (i & x & Hi & Hx).
  destruct (slot_at_reach m s i) as (d & Hd & Hdi); [lia | |].
  { apply lookup_lt_Some in Hi. lia. }
  destruct (probe_first_free e m sorted d (Z.to_nat m) s) as (k & Hk & Hfree & Hprobe);
    try done.
  { rewrite Hdi. eauto. }
  exists k. split; [lia | done].
Qed.

Lemma start_slot_range m h : 0 < m -> 0 <= start_slot m h < m.
Proof. intros. apply Z.mod_pos_bound. lia. Qed.

Lemma table_ok_empty m : table_ok m [] (replicate (Z.to_nat m) entry0).
Proof.
  split.
  - apply length_replicate.
  - intros i x Hx. apply lookup_replicate in Hx as [-> _]. left. done.
  - intros e He. inversion He.
  - rewrite occupied_replicate. done.
Qed.

(** Storing an entry in the first free slot on its way keeps every entry
    placed before where a probe finds it. *)
Lemma table_ok_place m placed sorted e k :
  0 < m -> table_ok m placed sorted -> (k < Z.to_nat m)%nat ->
  first_free sorted m (start_slot m (entry_hash e)) k ->
  table_ok m (placed ++ [e]) (<[slot_at m (start_slot m (entry_hash e)) k := e]> sorted).
Proof.
  intros Hm [Hlen Hpl Hfind Hocc] Hk [(x & Hx & Hx0) Hbefore].
  set (s := slot_at m (start_slot m (entry_hash e)) k) in *.
  split.
  - rewrite length_insert. done.
  - intros i y Hy. destruct (decide (i = s)) as [-> | Hi].
    + rewrite list_lookup_insert_eq in Hy by (apply lookup_lt_Some in Hx; done).
      inversion Hy; subst. right. apply elem_of_app. right.
      apply list_elem_of_singleton. done.
    + rewrite list_lookup_insert_ne in Hy by done.
      destruct (Hpl i y Hy); [left; done | right]. apply elem_of_app. left. done.
  - intros e' He' Hne. apply elem_of_app in He' as [He' | He'].
    + destruct (Hfind e' He' Hne) as (k' & Hk' & Hat & Hpath).
      exists k'. split; [done |]. split.
      * rewrite list_lookup_insert_ne; [done |].
        intros Heq. rewrite <- Heq, Hx in Hat. inversion Hat; subst. done.
      * intros j Hj. destruct (Hpath j Hj) as (y & Hy & Hy0).
        exists y. split; [| done].
        rewrite list_lookup_insert_ne; [done |].
        intros Heq. rewrite <- Heq, Hx in Hy. inversion Hy; subst. done.
    + apply list_elem_of_singleton in He'. subst e'.
      exists k. split; [done |]. split.
      * apply list_lookup_insert_eq. apply lookup_lt_Some in Hx. done.
      * intros j Hj. destruct (Hbefore j Hj) as (y & Hy & Hy0).
        exists y. split; [| done].
        rewrite list_lookup_insert_ne; [done |].
        intros Heq. fold s in Hx. rewrite <- Heq, Hx in Hy. inversion Hy; subst. done.
  - rewrite length_app. simpl.
    pose proof (occupied_insert sorted s x e Hx Hx0). lia.
Qed.

Lemma find_first {A} (P : A -> bool) (f : nat -> A) k : forall n a,
  (a <= k < a + n)%nat -> P (f k) = true ->
  (forall j, (a <= j < k)%nat -> P (f j) = false) ->
  List.find P (map f (seq a n)) = Some (f k).
Proof.
  induction n as [| n IH]; intros a Hk Hp Hbefore; [lia |].
  simpl. destruct (decide (a = k)) as [-> | Hne].
  - rewrite Hp. done.
  - rewrite Hbefore by lia. apply IH; [lia | done |]. intros j Hj. apply Hbefore. lia.
Qed.

(** The first free slot on the way is the one the specification names. *)
Lemma spec_place_first_free m sorted e k :
  0 < m -> length sorted = Z.to_nat m -> (k < Z.to_nat m)%nat ->
  first_free sorted m (start_slot m (entry_hash e)) k ->
  spec_place zero_hash sorted e
  = <[slot_at m (start_slot m (entry_hash e)) k := e]> sorted.
Proof.
  intros Hm Hlen Hk [(x & Hx & Hx0) Hbefore].
  unfold spec_place, probe_sequence.
  replace (Z.of_nat (length sorted)) with m by lia.
  change (fun k0 : nat => Z.to_nat ((Z.shiftr (entry_hash e) 8 mod m + Z.of_nat k0) mod m))
    with (slot_at m (start_slot m (entry_hash e))).
  rewrite (find_first _ _ k); [done | lia | |].
  - rewrite Hx. unfold zero_hash. apply Z.eqb_eq. done.
  - intros j Hj. destruct (Hbefore j) as (y & Hy & Hy0); [lia |].
    rewrite Hy. unfold zero_hash. apply Z.eqb_neq. done.
Qed.

(** The placement loop returns as long as the table has room, and what it
    builds is a table in which a probe finds what was placed. *)
Lemma place_returns m : forall es placed sorted,
  0 <= m <= MaxUint32 -> table_ok m placed sorted ->
  (length placed + length es < Z.to_nat m \/ es = [])%nat ->
  place sorted m es = Returns (fold_left (spec_place zero_hash) es sorted)
  /\ table_ok m (placed ++ es) (fold_left (spec_place zero_hash) es sorted).
Proof.
  induction es as [| e es IH]; intros placed sorted Hm Hok Hroom.
  - simpl. rewrite app_nil_r. done.
  - destruct Hroom as [Hroom | ?]; [| done]. simpl in Hroom.
    assert (0 < m) by lia.
    cbn [place fold_left].
    destruct (Z.eqb_spec m 0); [lia |].
    destruct (probe_returns e m sorted (start_slot m (entry_hash e)))
      as (k & Hk & Hfree & Hprobe).
    + lia.
    + apply Hok.
    + apply start_slot_range. done.
    + destruct Hok as [Hlen _ _ Hocc]. lia.
    + fold (start_slot m (entry_hash e)). rewrite Hprobe.
      rewrite (spec_place_first_free m sorted e k); try done; [| apply Hok].
      pose proof (table_ok_place m placed sorted e k ltac:(done) Hok Hk Hfree) as Hok'.
      destruct (IH (placed ++ [e]) _ Hm Hok') as [HP Hok''].
      * left. rewrite length_app. simpl. lia.
      * rewrite <- app_assoc in Hok''. done.
Qed.

Lemma tableSize_small (es : list entry) :
  2 * len es <= MaxUint32 -> uint32 (int64 (len es * 2)) = 2 * len es.
Proof.
  intros. pose proof (len_nonneg es). unfold MaxUint32 in *.
  rewrite int64_small by lia. rewrite uint32_small by (unfold MaxUint32; lia). lia.
Qed.

Lemma spec_subtable_fold es :
  spec_subtable zero_hash es
  = fold_left (spec_place zero_hash) es (replicate (Z.to_nat (2 * len es)) entry0).
Proof. unfold spec_subtable, len. do 2 f_equal. lia. Qed.

(** The sub-table of a bucket: twice as many slots as entries, filled as
    the specification describes with "empty" read as "zero hash". *)
Lemma sort_table_returns es :
  2 * len es <= MaxUint32 ->
  sort_table es = (2 * len es, Returns (spec_subtable zero_hash es))
  /\ table_ok (2 * len es) es (spec_subtable zero_hash es).
Proof.
  intros Hsmall. pose proof (len_nonneg es).
  unfold sort_table. rewrite tableSize_small by done.
  rewrite spec_subtable_fold.
  destruct (place_returns (2 * len es) es [] (replicate (Z.to_nat (2 * len es)) entry0))
    as [HP Hok].
  - lia.
  - apply table_ok_empty.
  - destruct es; [right; done | left]. unfold len in *. simpl in *. lia.
  - rewrite HP. done.
Qed.

Lemma sorted_of_spec es :
  2 * len es <= MaxUint32 -> sorted_of es = spec_subtable zero_hash es.
Proof.
  intros H. unfold sorted_of. destruct (sort_table_returns es H) as [-> _]. done.
Qed.

Lemma length_sorted_of es :
  2 * len es <= MaxUint32 -> len (sorted_of es) = 2 * len es.
Proof.
  intros H. rewrite sorted_of_spec by done.
  destruct (sort_table_returns es H) as [_ [Hlen _ _ _]].
  unfold len in *. lia.
Qed.

(** ** Writing the file *)

Lemma file_Write_end f p :
  pos f = len (data f) -> data (file_Write f p) = data f ++ p.
Proof.
  intros Hpos. unfold file_Write. simpl. rewrite Hpos. unfold len. rewrite Nat2Z.id.
  rewrite firstn_all, Nat.sub_diag, drop_ge by lia. simpl. now rewrite app_nil_r.
Qed.

Lemma file_Write_over f a b c p :
  data f = a ++ b ++ c -> pos f = len a -> length p = length b ->
  data (file_Write f p) = a ++ p ++ c.
Proof.
  intros Hd Hpos Hp. unfold file_Write. simpl. rewrite Hpos, Hd. unfold len.
  rewrite Nat2Z.id, take_app_length.
  replace (length a - length (a ++ b ++ c))%nat with 0%nat by (rewrite length_app; lia).
  rewrite drop_app_add', Hp, drop_app_length by done. done.
Qed.

Lemma Create_returns :
  Create = Ok {| writer := mkFile (replicate 2048 Byte.x00) 2048 false;
                 entries := replicate 256 [];
                 finalizeOnce := false;
                 bufferedWriter := Some [];
                 bufferedOffset := 2048;
                 estimatedFooterSize := 0 |}.
Proof. vm_compute. reflexivity. Qed.

Lemma write_sorted_returns : forall sorted buf off,
  0 <= off -> off + 8 * len sorted <= MaxUint32 ->
  write_sorted buf off sorted = (buf ++ slots_bytes sorted, off + 8 * len sorted, None).
Proof.
  induction sorted as [| e sorted IH]; intros buf off H0 Hsmall.
  - unfold len. simpl. rewrite app_nil_r. do 2 f_equal. lia.
  - assert (Hl : len (e :: sorted) = 1 + len sorted) by (unfold len; simpl; lia).
    rewrite Hl in *. pose proof (len_nonneg sorted).
    cbn [write_sorted]. unfold MaxUint32 in *.
    rewrite int64_small by lia.
    destruct (Z.gtb_spec (off + 8) 4294967295); [lia |].
    rewrite IH by (unfold MaxUint32; lia).
    unfold slots_bytes. cbn [map concat]. rewrite <- app_assoc.
    do 2 f_equal. lia.
Qed.

Lemma tables_size_nonneg ents : 0 <= tables_size ents.
Proof.
  induction ents as [| es ents IH]; simpl; [lia |].
  pose proof (len_nonneg es). lia.
Qed.

Lemma len_slots_bytes sorted : len (slots_bytes sorted) = 8 * len sorted.
Proof.
  unfold slots_bytes. induction sorted as [| e sorted IH]; [done |].
  cbn [map concat]. rewrite len_app, len_writeTuple, IH. unfold len. simpl. lia.
Qed.

(** The bytes of the sub-tables are as many as [Put] has estimated. *)
Lemma len_tables_bytes ents :
  tables_size ents <= MaxUint32 -> len (tables_bytes ents) = tables_size ents.
Proof.
  unfold tables_bytes. induction ents as [| es ents IH]; intros H; [done |].
  cbn [map concat tables_size] in *.
  pose proof (tables_size_nonneg ents). pose proof (len_nonneg es).
  rewrite len_app, len_slots_bytes, length_sorted_of, IH by lia. lia.
Qed.

(** The loop over the 256 buckets neither fails nor stalls when the
    sub-tables fit below the limit, and lays the sub-tables back to back. *)
Lemma write_tables_returns : forall n i ents index buf off,
  length ents = (i + n)%nat -> length index = (i + n)%nat ->
  0 <= off -> off + tables_size (drop i ents) <= MaxUint32 ->
  write_tables n i ents index buf off
  = Returns (take i index ++ directory off (drop i ents),
             buf ++ tables_bytes (drop i ents),
             off + tables_size (drop i ents), None).
Proof.
  induction n as [| n IH]; intros i ents index buf off Hle Hli H0 Hsmall.
  - rewrite drop_ge by lia. rewrite firstn_all2 by lia. simpl.
    rewrite !app_nil_r, Z.add_0_r. done.
  - destruct (lookup_lt_is_Some_2 ents i) as [es Hes]; [lia |].
    rewrite (drop_S _ _ _ Hes) in *. cbn [tables_size directory] in *.
    pose proof (tables_size_nonneg (drop (S i) ents)). pose proof (len_nonneg es).
    cbn [write_tables]. rewrite Hes.
    destruct (sort_table_returns es) as [Hsort Hok]; [lia |].
    rewrite Hsort. cbn [mbind outcome_bind].
    assert (Hlen : len (spec_subtable zero_hash es) = 2 * len es).
    { rewrite <- sorted_of_spec by lia. apply length_sorted_of. lia. }
    rewrite write_sorted_returns by lia.
    rewrite uint32_small by lia.
    rewrite IH; [| rewrite ?length_insert, ?Hlen; lia ..].
    + rewrite Hlen. replace (off + 8 * (2 * len es)) with (off + 16 * len es) by lia.
      rewrite (take_S_r _ _ (mkTable off (2 * len es))).
      * rewrite take_insert_ge by lia. unfold tables_bytes. cbn [map concat].
        rewrite sorted_of_spec by lia.
        rewrite <- !app_assoc, Z.add_assoc. done.
      * apply list_lookup_insert_eq. lia.
Qed.

Lemma length_buckets log : length (buckets log) = 256%nat.
Proof. unfold buckets. rewrite length_map, length_seq. done. Qed.

Lemma lookup_buckets log b :
  (b < 256)%nat -> buckets log !! b = Some (bucket b log).
Proof.
  intros Hb. unfold buckets.
  change (map ?f ?l) with (f <$> l).
  rewrite list_lookup_fmap, lookup_seq_lt by done. done.
Qed.

Lemma Puts_written kvs w0 w :
  Create = Ok w0 -> Forall fits kvs -> Puts w0 kvs = Some w ->
  w = written kvs
  /\ tables_size (buckets (entry_log indexSize kvs)) = 16 * len kvs
  /\ indexSize + len (records kvs) + 16 * len kvs <= MaxUint32.
Proof.
  rewrite Create_returns. intros Hw0 Hf HP. apply (inj Ok) in Hw0. subst w0.
  eapply Puts_state in HP; [| | | fields; reflexivity | done].
  - fields. destruct HP as (Hw' & Hwr & Hfo & Hbw & Hoff & Hft & Hlen & Hts & Hent).
    assert (He : entries w = buckets (entry_log indexSize kvs)).
    { apply list_eq. intros b. destruct (decide (b < 256)%nat) as [Hb | Hb].
      - rewrite lookup_buckets by done.
        rewrite (Hent b []); [done |]. apply lookup_replicate. done.
      - rewrite !lookup_ge_None_2; [done | rewrite length_buckets; lia | lia]. }
    rewrite tables_size_replicate in Hts. rewrite <- He.
    destruct Hw' as (? & ? & ?).
    split; [| split; [lia | unfold indexSize; lia]].
    destruct w; fields. unfold written. subst.
    f_equal.
  - unfold within_limit, MaxUint32. fields. lia.
  - fields. apply length_replicate.
Qed.

Lemma length_directory off ents : length (directory off ents) = length ents.
Proof. revert off. induction ents; intros; simpl; [done | now rewrite IHents]. Qed.

Lemma length_index_bytes index : length (index_bytes index) = (8 * length index)%nat.
Proof.
  unfold index_bytes. induction index as [| t index IH]; [done |].
  cbn [map concat]. rewrite !length_app, IH. unfold PutUint32.
  rewrite !length_le_split. simpl. lia.
Qed.

(** [finalize] after [Create] and successful [Put]s: it returns without an
    error and the file is the database described above. *)
Lemma finalize_written kvs :
  tables_size (buckets (entry_log indexSize kvs)) = 16 * len kvs ->
  indexSize + len (records kvs) + 16 * len kvs <= MaxUint32 ->
  finalize (written kvs)
  = Returns ({| writer := mkFile (database kvs) (len (database kvs)) false;
                entries := buckets (entry_log indexSize kvs);
                finalizeOnce := false;
                bufferedWriter := None;
                bufferedOffset := indexSize + len (records kvs) + 16 * len kvs;
                estimatedFooterSize := 16 * len kvs |},
             directory (indexSize + len (records kvs)) (buckets (entry_log indexSize kvs)),
             None).
Proof.
  intros Hts Hsmall. pose proof (len_nonneg (records kvs)).
  unfold finalize. cbn [written bufferedWriter entries bufferedOffset writer].
  rewrite write_tables_returns;
    [| rewrite ?length_buckets; try done; rewrite ?drop_0, ?Hts; unfold indexSize in *; lia ..].
  cbn [mbind outcome_bind]. rewrite drop_0, Hts.
  change (take 0 index0) with (@nil table). rewrite app_nil_l. cbn [closed].
  set (ents := buckets (entry_log indexSize kvs)).
  set (dir := directory (indexSize + len (records kvs)) ents).
  set (f0 := mkFile (replicate 2048 Byte.x00) 2048 false).
  set (f1 := file_Write f0 (records kvs ++ tables_bytes ents)).
  assert (H1 : data f1 = [] ++ replicate 2048 Byte.x00 ++ records kvs ++ tables_bytes ents).
  { unfold f1. rewrite file_Write_end; [done |]. done. }
  set (f2 := file_Write (file_Seek f1 0) (index_bytes dir)).
  assert (H2 : data f2 = index_bytes dir ++ records kvs ++ tables_bytes ents).
  { unfold f2. erewrite file_Write_over; [| exact H1 | done |]; [done |].
    rewrite length_index_bytes. unfold dir. rewrite length_directory.
    unfold ents. rewrite length_buckets, length_replicate. done. }
  unfold file_SeekEnd. fold f1. fold f2.
  assert (Hbody : data f2 = database_body kvs) by (rewrite H2; done).
  unfold len at 2. rewrite Nat2Z.id. cbn [data file_Seek]. rewrite firstn_all, Hbody.
  assert (Hw : file_Write (file_Seek f2 (len (database_body kvs)))
                          (sha256 (database_body kvs))
               = mkFile (database kvs) (len (database kvs)) false).
  { unfold file_Write. cbn [data pos closed file_Seek]. rewrite Hbody.
    unfold len at 1 2. rewrite !Nat2Z.id.
    rewrite firstn_all, Nat.sub_diag, drop_ge by (unfold len; lia).
    cbn [replicate app]. rewrite app_nil_r.
    unfold database. rewrite len_app. done. }
  rewrite Hw. done.
Qed.

(** ** The layout of the database *)

Lemma tables_size_app ents1 ents2 :
  tables_size (ents1 ++ ents2) = tables_size ents1 + tables_size ents2.
Proof. induction ents1 as [| es ents1 IH]; simpl; [done | rewrite IH; lia]. Qed.

Lemma tables_size_take b ents es :
  ents !! b = Some es ->
  tables_size ents
  = tables_size (take b ents) + 16 * len es + tables_size (drop (S b) ents).
Proof.
  intros H. rewrite <- (take_drop_middle ents b es H) at 1.
  rewrite tables_size_app. simpl. lia.
Qed.

(** Entry [b] of the directory: where the sub-tables before it end, and
    twice the entries of the bucket. *)
Lemma lookup_directory : forall ents off b es,
  ents !! b = Some es ->
  directory off ents !! b
  = Some (mkTable (off + tables_size (take b ents)) (2 * len es)).
Proof.
  induction ents as [| es0 ents IH]; intros off [| b] es H; simpl in *; try done.
  - inversion H; subst. rewrite Z.add_0_r. done.
  - rewrite (IH _ _ _ H). f_equal. f_equal. lia.
Qed.

Lemma tables_bytes_app ents1 ents2 :
  tables_bytes (ents1 ++ ents2) = tables_bytes ents1 ++ tables_bytes ents2.
Proof. unfold tables_bytes. rewrite map_app, concat_app. done. Qed.

Lemma tables_bytes_middle b ents es :
  ents !! b = Some es ->
  tables_bytes ents
  = tables_bytes (take b ents) ++ slots_bytes (sorted_of es)
      ++ tables_bytes (drop (S b) ents).
Proof.
  intros H. rewrite <- (take_drop_middle ents b es H) at 1.
  rewrite tables_bytes_app. unfold tables_bytes at 2. cbn [map concat]. done.
Qed.

Lemma slots_bytes_middle s sorted x :
  sorted !! s = Some x ->
  slots_bytes sorted
  = slots_bytes (take s sorted) ++ writeTuple (entry_hash x) (entry_offset x)
      ++ slots_bytes (drop (S s) sorted).
Proof.
  intros H. rewrite <- (take_drop_middle sorted s x H) at 1.
  unfold slots_bytes. rewrite map_app, concat_app. cbn [map concat]. done.
Qed.

Lemma index_bytes_middle i index t :
  index !! i = Some t ->
  index_bytes index
  = index_bytes (take i index)
      ++ (PutUint32 (table_offset t) ++ PutUint32 (table_length t))
      ++ index_bytes (drop (S i) index).
Proof.
  intros H. rewrite <- (take_drop_middle index i t H) at 1.
  unfold index_bytes. rewrite map_app, concat_app. cbn [map concat]. done.
Qed.

Lemma pair_at (a : bytes) x y (c : bytes) :
  take 4 (drop (length a) (a ++ (PutUint32 x ++ PutUint32 y) ++ c)) = PutUint32 x
  /\ take 4 (drop (length a + 4) (a ++ (PutUint32 x ++ PutUint32 y) ++ c)) = PutUint32 y.
Proof.
  assert (Hx : length (PutUint32 x) = 4%nat) by (unfold PutUint32; now rewrite length_le_split).
  assert (Hy : length (PutUint32 y) = 4%nat) by (unfold PutUint32; now rewrite length_le_split).
  split.
  - rewrite drop_app_length, <- app_assoc. apply take_app_length'. done.
  - rewrite <- Hx, <- length_app, <- app_assoc, (app_assoc a), drop_app_length.
    apply take_app_length'. done.
Qed.

(** The directory is read back as it was written. *)
Lemma readIndex_index_bytes f index rest :
  closed f = false -> data f = index_bytes index ++ rest ->
  length index = 256%nat ->
  (forall t, t ∈ index -> is_uint32 (table_offset t) /\ is_uint32 (table_length t)) ->
  readIndex f = Ok index.
Proof.
  intros Hc Hd Hlen Hrange. unfold readIndex.
  rewrite (ReadAt_middle f [] (index_bytes index) rest); try done.
  2:{ unfold len. rewrite length_index_bytes, Hlen. done. }
  f_equal. apply list_eq. intros i.
  change (map ?g ?l) with (g <$> l). rewrite list_lookup_fmap.
  destruct (decide (i < 256)%nat) as [Hi | Hi].
  - rewrite lookup_seq_lt by done. cbn [fmap option_fmap option_map].
    destruct (lookup_lt_is_Some_2 index i) as [t Ht]; [lia |].
    rewrite Ht. f_equal.
    rewrite (index_bytes_middle i index t Ht).
    assert (Hpre : length (index_bytes (take i index)) = (i * 8)%nat).
    { rewrite length_index_bytes, length_take. lia. }
    destruct (Hrange t) as [Ho Hl]; [eapply list_elem_of_lookup_2; done |].
    replace ((0 + i) * 8)%nat with (length (index_bytes (take i index))) by lia.
    destruct (pair_at (index_bytes (take i index)) (table_offset t) (table_length t)
                (index_bytes (drop (S i) index))) as [-> ->].
    rewrite !Uint32_PutUint32, !uint32_small by done.
    destruct t; done.
  - rewrite lookup_seq_ge by lia. rewrite lookup_ge_None_2 by lia. done.
Qed.

Lemma directory_uint32 : forall ents off t,
  0 <= off -> off + tables_size ents <= MaxUint32 -> t ∈ directory off ents ->
  is_uint32 (table_offset t) /\ is_uint32 (table_length t).
Proof.
  induction ents as [| es ents IH]; intros off t H0 Hsmall Ht; simpl in *.
  - inversion Ht.
  - pose proof (tables_size_nonneg ents). pose proof (len_nonneg es).
    apply elem_of_cons in Ht as [-> | Ht].
    + unfold is_uint32. simpl. lia.
    + apply (IH (off + 16 * len es)); [lia | lia | done].
Qed.

(** ** Records and their entries *)

Lemma entry_log_stored : forall kvs off e,
  e ∈ entry_log off kvs ->
  exists key value, (key, value) ∈ kvs /\ stored (records kvs) off e key value.
Proof.
  induction kvs as [| [k v] kvs IH]; intros off e He; cbn [entry_log records] in *.
  - inversion He.
  - apply elem_of_cons in He as [-> | He].
    + exists k, v. split; [left |]. split; [done |].
      exists [], (records kvs). split; [done |]. unfold len. simpl. lia.
    + destruct (IH _ _ He) as (key & value & Hin & Hh & pre & post & Hrecs & Hoff).
      exists key, value. split; [right; done |]. split; [done |].
      exists (record k v ++ pre), post. split.
      * rewrite Hrecs, <- app_assoc. done.
      * rewrite Hoff, len_app. unfold record. rewrite !len_app, len_writeTuple. lia.
Qed.

Lemma stored_entry_log : forall kvs off key value,
  (key, value) ∈ kvs ->
  exists e, e ∈ entry_log off kvs /\ stored (records kvs) off e key value.
Proof.
  induction kvs as [| [k v] kvs IH]; intros off key value Hin; cbn [entry_log records] in *.
  - inversion Hin.
  - apply elem_of_cons in Hin as [Heq | Hin].
    + inversion Heq; subst k v.
      exists (mkEntry (hash_of key) off). split; [left |]. split; [done |].
      exists [], (records kvs). split; [done |]. unfold len. simpl. lia.
    + destruct (IH (off + (8 + len k + len v)) _ _ Hin)
        as (e & He & Hh & pre & post & Hrecs & Hoff).
      exists e. split; [right; done |]. split; [done |].
      exists (record k v ++ pre), post. split.
      * rewrite Hrecs, <- app_assoc. done.
      * rewrite Hoff, len_app. unfold record. rewrite !len_app, len_writeTuple. lia.
Qed.

Lemma elem_of_bucket e b log : e ∈ bucket b log <-> e ∈ log /\ bucket_of e = b.
Proof. unfold bucket. rewrite list_elem_of_filter. tauto. Qed.

(** A stored record lies within the records. *)
Lemma stored_bound recs off e key value :
  stored recs off e key value ->
  off <= entry_offset e /\
  entry_offset e + 8 + len key + len value <= off + len recs.
Proof.
  intros (_ & pre & post & -> & ->).
  unfold record. rewrite !len_app, len_writeTuple.
  pose proof (len_nonneg pre). pose proof (len_nonneg post). lia.
Qed.

(** ** Reading *)

(** Reading the record at an offset where a record lies: the value if the
    key is the one asked for, nil if it is not. *)
Lemma getValueAt_record cdb a key value c expectedKey :
  closed (reader cdb) = false ->
  data (reader cdb) = a ++ record key value ++ c ->
  len a + 8 + len key + len value <= MaxUint32 ->
  getValueAt cdb (len a) expectedKey
  = Returns (Ok (if decide (key = expectedKey) then Some value else None)).
Proof.
  intros Hc Hd Hsmall.
  pose proof (len_nonneg a). pose proof (len_nonneg key). pose proof (len_nonneg value).
  unfold getValueAt, record in *.
  rewrite (readTuple_middle _ a (len key) (len value) (key ++ value ++ c))
    by (try done; rewrite Hd, <- !app_assoc; done).
  rewrite (uint32_small (len key)), (uint32_small (len value)) by lia.
  rewrite (uint32_small (len key + len value)), (uint32_small (len a + 8)) by lia.
  destruct (Z.eqb_spec (len key) (len expectedKey)) as [Hlen | Hlen]; cbn [negb].
  2:{ rewrite decide_False; [done |]. intros ->. done. }
  rewrite (ReadAt_middle _ (a ++ writeTuple (len key) (len value)) (key ++ value) c).
  - destruct (Z.ltb_spec (len key + len value) (len key)); [lia |].
    replace (Z.to_nat (len key)) with (length key) by (unfold len; lia).
    rewrite take_app_length, drop_app_length.
    destruct (decide (key = expectedKey)) as [-> | Hne].
    + rewrite bool_decide_true by done. done.
    + rewrite bool_decide_false by done. done.
  - done.
  - rewrite Hd, <- !app_assoc. done.
  - rewrite len_app, len_writeTuple. done.
  - rewrite len_app. done.
Qed.

Lemma len_take {A} (l : list A) (n : nat) :
  (n <= length l)%nat -> len (take n l) = Z.of_nat n.
Proof. intros. unfold len. rewrite length_take. lia. Qed.

Lemma tables_size_take_le b ents : tables_size (take b ents) <= tables_size ents.
Proof.
  rewrite <- (take_drop b ents) at 2. rewrite tables_size_app.
  pose proof (tables_size_nonneg (drop b ents)). lia.
Qed.

Lemma database_layout kvs :
  database kvs
  = index_bytes (directory (indexSize + len (records kvs))
                   (buckets (entry_log indexSize kvs)))
      ++ records kvs ++ tables_bytes (buckets (entry_log indexSize kvs))
      ++ sha256 (database_body kvs).
Proof. unfold database, database_body. rewrite <- !app_assoc. done. Qed.

Lemma len_directory_bytes off log :
  len (index_bytes (directory off (buckets log))) = indexSize.
Proof.
  unfold len. rewrite length_index_bytes, length_directory, length_buckets. done.
Qed.

(** The entries of a bucket are entries of records, and hold [uint32]s. *)
Lemma bucket_stored kvs b e :
  e ∈ bucket b (entry_log indexSize kvs) ->
  bucket_of e = b /\
  exists key value, (key, value) ∈ kvs /\ stored (records kvs) indexSize e key value.
Proof.
  intros He. apply elem_of_bucket in He as [He Hb]. split; [done |].
  apply entry_log_stored. done.
Qed.

Lemma slot_uint32 kvs b x i :
  sized kvs -> (b < 256)%nat ->
  sorted_of (bucket b (entry_log indexSize kvs)) !! i = Some x ->
  is_uint32 (entry_hash x) /\ is_uint32 (entry_offset x)
  /\ (x = entry0 \/ x ∈ bucket b (entry_log indexSize kvs)).
Proof.
  intros [Hts Hsmall] Hb Hx.
  set (ents := buckets (entry_log indexSize kvs)) in *.
  set (es := bucket b (entry_log indexSize kvs)) in *.
  assert (Hes : ents !! b = Some es) by (apply lookup_buckets; done).
  pose proof (tables_size_take b ents es Hes) as Hsplit.
  pose proof (tables_size_nonneg (take b ents)).
  pose proof (tables_size_nonneg (drop (S b) ents)).
  pose proof (len_nonneg es). pose proof (len_nonneg (records kvs)).
  pose proof (len_nonneg kvs). unfold indexSize in *.
  assert (Hes_small : 2 * len es <= MaxUint32) by lia.
  destruct (sort_table_returns es Hes_small) as [_ Hok].
  rewrite sorted_of_spec in Hx by done.
  destruct (ok_placed _ _ _ Hok i x Hx) as [-> | Hin].
  - unfold is_uint32, MaxUint32. simpl. split; [lia | split; [lia | left; done]].
  - split; [| split; [| right; done]].
    + apply bucket_stored in Hin as (_ & key & value & _ & Hh & _).
      rewrite Hh. apply hash_of_range.
    + apply bucket_stored in Hin as (_ & key & value & _ & Hst).
      apply stored_bound in Hst. unfold is_uint32, indexSize in *.
      pose proof (len_nonneg key). pose proof (len_nonneg value). lia.
Qed.

(** Reading slot [i] of sub-table [b] gives the slot the writer built. *)
Lemma readTuple_slot kvs cdb b i x t :
  serves kvs cdb -> sized kvs -> (b < 256)%nat ->
  index cdb !! b = Some t ->
  sorted_of (bucket b (entry_log indexSize kvs)) !! i = Some x ->
  readTuple (reader cdb) (uint32 (table_offset t + uint32 (8 * Z.of_nat i)))
  = Ok (entry_hash x, entry_offset x).
Proof.
  intros [Hc Hd Hidx] Hsz Hb Ht Hx.
  destruct (slot_uint32 kvs b x i Hsz Hb Hx) as (Hh & Ho & _).
  destruct Hsz as [Hts Hsmall].
  set (ents := buckets (entry_log indexSize kvs)) in *.
  set (es := bucket b (entry_log indexSize kvs)) in *.
  assert (Hes : ents !! b = Some es) by (apply lookup_buckets; done).
  rewrite Hidx, (lookup_directory _ _ _ _ Hes) in Ht. inversion Ht; subst t; clear Ht.
  cbn [table_offset].
  pose proof (tables_size_take b ents es Hes) as Hsplit.
  pose proof (tables_size_nonneg (take b ents)).
  pose proof (tables_size_nonneg (drop (S b) ents)).
  pose proof (len_nonneg es). pose proof (len_nonneg (records kvs)).
  pose proof (len_nonneg kvs). pose proof (eq_refl : indexSize = 2048).
  assert (Hes_small : 2 * len es <= MaxUint32) by lia.
  pose proof (length_sorted_of es Hes_small) as Hlen.
  pose proof (lookup_lt_Some _ _ _ Hx) as Hi. unfold len in Hlen.
  assert (Hi' : 8 * Z.of_nat i < 16 * len es) by (unfold len; lia).
  rewrite (uint32_small (8 * Z.of_nat i)) by lia.
  rewrite uint32_small by lia.
  rewrite <- (uint32_small (entry_hash x)), <- (uint32_small (entry_offset x)) by done.
  apply (readTuple_middle _
           (index_bytes (directory (indexSize + len (records kvs)) ents) ++ records kvs
              ++ tables_bytes (take b ents) ++ slots_bytes (take i (sorted_of es)))
           _ _
           (slots_bytes (drop (S i) (sorted_of es))
              ++ tables_bytes (drop (S b) ents) ++ sha256 (database_body kvs))).
  - done.
  - rewrite Hd, database_layout. fold ents.
    rewrite (tables_bytes_middle b ents es Hes).
    rewrite (slots_bytes_middle i (sorted_of es) x Hx).
    rewrite <- !app_assoc. done.
  - assert (Hdir : len (index_bytes (directory (indexSize + len (records kvs)) ents))
                   = indexSize) by apply len_directory_bytes.
    rewrite !len_app, Hdir, len_tables_bytes, len_slots_bytes.
    + rewrite len_take by lia. lia.
    + pose proof (tables_size_take_le b ents). lia.
Qed.

(** ** The probing loop of [Get] *)

Lemma slot_at_Z m s k : 0 < m -> Z.of_nat (slot_at m s k) = (s + Z.of_nat k) mod m.
Proof.
  intros. unfold slot_at.
  pose proof (Z.mod_pos_bound (s + Z.of_nat k) m ltac:(lia)). lia.
Qed.

Lemma slot_at_full m s : 0 <= s < m -> slot_at m s (Z.to_nat m) = Z.to_nat s.
Proof.
  intros. unfold slot_at. rewrite Z2Nat.id by lia.
  rewrite <- (Z.mul_1_l m) at 1. rewrite Z.mod_add by lia.
  rewrite Z.mod_small by lia. done.
Qed.

(** The step [slot = (slot + 1) % table.length] and the test
    [slot == startingSlot], [j] steps from the start. *)
Lemma Get_next_slot m s j :
  0 < m <= MaxUint32 -> 0 <= s < m -> (j < Z.to_nat m)%nat ->
  uint32 (Z.of_nat (slot_at m s j) + 1) mod m = Z.of_nat (slot_at m s (S j))
  /\ (Z.of_nat (slot_at m s (S j)) =? s) = bool_decide (S j = Z.to_nat m).
Proof.
  intros Hm Hs Hj. pose proof (slot_at_lt m s j ltac:(lia)).
  split.
  - rewrite next_slot by lia. rewrite !slot_at_Z by lia.
    rewrite Zplus_mod_idemp_l. f_equal. lia.
  - destruct (decide (S j = Z.to_nat m)) as [Heq | Hne].
    + rewrite bool_decide_true by done. rewrite Heq, slot_at_full by done.
      apply Z.eqb_eq. lia.
    + rewrite bool_decide_false by done. apply Z.eqb_neq. intros Heq.
      apply Hne. exfalso.
      assert (S j = 0%nat); [| lia].
      apply (slot_at_inj m s); [lia | lia | lia |].
      rewrite slot_at_0 by done. lia.
Qed.

(** [getValueAt] has no loop. *)
Lemma getValueAt_ends cdb offset key : getValueAt cdb offset key <> Spins.
Proof.
  unfold getValueAt.
  destruct (readTuple (reader cdb) offset) as [[keyLength valueLength] |]; [| done].
  destruct (negb (keyLength =? len key)); [done |].
  destruct (ReadAt _ _ _); [| done].
  destruct (_ <? _); [done |]. destruct (negb _); done.
Qed.

Section Probing.

Variables (cdb : CDB) (key : bytes) (t : table).
Local Abbreviation m := (table_length t).
Local Abbreviation h := (hash_of key).
Local Abbreviation s := (start_of t key).
Hypothesis m_uint32 : 0 < m <= MaxUint32.

Lemma start_of_range : 0 <= s < m.
Proof. apply start_slot_range. lia. Qed.

Lemma Get_from_step revs j :
  (j < Z.to_nat m)%nat ->
  Get_from (S revs) cdb key t j
  = match readTuple (reader cdb) (slot_offset t key j) with
    | Err e => Returns (Err e)
    | Ok (slotHash, offset) =>
      if slotHash =? 0 then Returns (Ok None)
      else if slotHash =? h then
        r ← getValueAt cdb offset key;
        match r with
        | Err e => Returns (Err e)
        | Ok (Some value) => Returns (Ok (Some value))
        | Ok None => Get_after revs cdb key t j
        end
      else Get_after revs cdb key t j
    end.
Proof.
  intros Hj. unfold Get_from. cbn [Get_loop]. fold (slot_offset t key j).
  destruct (Get_next_slot m s j m_uint32 start_of_range Hj) as [H1 H2].
  fold (way t key j) in H1. fold (way t key (S j)) in H1, H2. rewrite H1, H2.
  unfold Get_after, Get_from. done.
Qed.

(** One revolution is all the loop can make: given the slots left on the
    way back to the start, it ends, and more revolutions change nothing. *)
Lemma Get_from_ends : forall d j,
  (j + d = Z.to_nat m)%nat -> (0 < d)%nat ->
  exists r, r <> Spins /\
    forall revs, (d <= revs)%nat -> Get_from revs cdb key t j = r.
Proof.
  induction d as [| d IH]; intros j Hjd Hd; [lia |].
  assert (Hafter : exists r, r <> Spins /\
            forall revs, (d <= revs)%nat -> Get_after revs cdb key t j = r).
  { unfold Get_after. destruct (decide (S j = Z.to_nat m)) as [Heq | Hne].
    - rewrite bool_decide_true by done. exists (Returns (Ok None)). done.
    - rewrite bool_decide_false by done. apply IH; lia. }
  destruct Hafter as (ra & Hra & Hafter).
  assert (Hstep : forall revs, (S d <= revs)%nat ->
            Get_from revs cdb key t j = Get_from (S d) cdb key t j).
  { intros [| revs] Hrevs; [lia |]. rewrite !Get_from_step by lia.
    rewrite !Hafter by lia. done. }
  exists (Get_from (S d) cdb key t j).
  split; [| done].
  rewrite Get_from_step by lia. rewrite Hafter by lia.
  destruct (readTuple (reader cdb) (slot_offset t key j)) as [[slotHash offset] |]; [| done].
  destruct (slotHash =? 0); [done |].
  destruct (slotHash =? h); [| done].
  pose proof (getValueAt_ends cdb offset key).
  destruct (getValueAt cdb offset key) as [[[value |] |] | |];
    cbn [mbind outcome_bind]; done.
Qed.

(** A zero hash ends the loop at once. *)
Lemma Get_from_zero revs j offset :
  (j < Z.to_nat m)%nat ->
  readTuple (reader cdb) (slot_offset t key j) = Ok (0, offset) ->
  Get_from (S revs) cdb key t j = Returns (Ok None).
Proof. intros Hj Hr. rewrite Get_from_step, Hr by done. done. Qed.

(** Slots that neither end the loop nor hold the key are passed one by
    one; past the last of them the loop is back at the start. *)
Lemma Get_from_passes : forall d j,
  (j + d = Z.to_nat m)%nat -> (0 < d)%nat ->
  (forall i, (j <= i < Z.to_nat m)%nat ->
     exists slotHash offset,
       readTuple (reader cdb) (slot_offset t key i) = Ok (slotHash, offset)
       /\ slotHash <> 0
       /\ (slotHash = h -> getValueAt cdb offset key = Returns (Ok None))) ->
  forall revs,
    Get_from revs cdb key t j
    = if decide (d <= revs)%nat then Returns (Ok None) else Spins.
Proof.
  induction d as [| d IH]; intros j Hjd Hd Hslots revs; [lia |].
  destruct revs as [| revs].
  { rewrite decide_False by lia. done. }
  rewrite Get_from_step by lia.
  destruct (Hslots j) as (slotHash & offset & -> & Hne & Hkey); [lia |].
  apply Z.eqb_neq in Hne. rewrite Hne.
  assert (Hafter : Get_after revs cdb key t j
                   = if decide (S d <= S revs)%nat then Returns (Ok None) else Spins).
  { unfold Get_after. destruct (decide (S j = Z.to_nat m)) as [Heq | Hneq].
    - rewrite bool_decide_true by done. rewrite decide_True by lia. done.
    - rewrite bool_decide_false by done. rewrite (IH (S j)); [| lia | lia |].
      + destruct (decide (d <= revs)%nat), (decide (S d <= S revs)%nat); done || lia.
      + intros i Hi. apply Hslots. lia. }
  destruct (Z.eqb_spec slotHash h) as [Heq | _]; [| done].
  rewrite (Hkey Heq). done.
Qed.

(** Slots that are empty or hold other keys: the key is not found. *)
Lemma Get_from_misses : forall d j,
  (j + d = Z.to_nat m)%nat -> (0 < d)%nat ->
  (forall i, (j <= i < Z.to_nat m)%nat ->
     exists slotHash offset,
       readTuple (reader cdb) (slot_offset t key i) = Ok (slotHash, offset)
       /\ (slotHash <> 0 -> slotHash = h ->
           getValueAt cdb offset key = Returns (Ok None))) ->
  forall revs, (d <= revs)%nat -> Get_from revs cdb key t j = Returns (Ok None).
Proof.
  induction d as [| d IH]; intros j Hjd Hd Hslots revs Hrevs; [lia |].
  destruct revs as [| revs]; [lia |].
  rewrite Get_from_step by lia.
  destruct (Hslots j) as (slotHash & offset & -> & Hkey); [lia |].
  destruct (Z.eqb_spec slotHash 0) as [| Hne]; [done |].
  assert (Hafter : Get_after revs cdb key t j = Returns (Ok None)).
  { unfold Get_after. destruct (decide (S j = Z.to_nat m)) as [Heq | Hneq].
    - rewrite bool_decide_true by done. done.
    - rewrite bool_decide_false by done. apply (IH (S j)); try lia.
      intros i Hi. apply Hslots. lia. }
  destruct (Z.eqb_spec slotHash h) as [Heq | _]; [| done].
  rewrite (Hkey Hne Heq). done.
Qed.

(** The key lies [k] steps from the start behind slots that are taken: the
    loop returns its value, or that of a slot before it that holds the key
    as well. *)
Lemma Get_from_hits (P : bytes -> Prop) k : forall d j,
  (j + d = k)%nat -> (k < Z.to_nat m)%nat ->
  (exists offset value,
     readTuple (reader cdb) (slot_offset t key k) = Ok (h, offset)
     /\ h <> 0 /\ getValueAt cdb offset key = Returns (Ok (Some value)) /\ P value) ->
  (forall i, (j <= i < k)%nat ->
     exists slotHash offset r,
       readTuple (reader cdb) (slot_offset t key i) = Ok (slotHash, offset)
       /\ slotHash <> 0
       /\ (slotHash = h -> getValueAt cdb offset key = Returns (Ok r)
                           /\ forall value, r = Some value -> P value)) ->
  forall revs, (d < revs)%nat ->
    exists value, Get_from revs cdb key t j = Returns (Ok (Some value)) /\ P value.
Proof.
  induction d as [| d IH]; intros j Hjd Hk Hlast Hslots revs Hrevs;
    (destruct revs as [| revs]; [lia |]); rewrite Get_from_step by lia.
  - replace j with k by lia.
    destruct Hlast as (offset & value & -> & Hne & -> & HP).
    apply Z.eqb_neq in Hne. rewrite Hne, Z.eqb_refl. cbn [mbind outcome_bind]. eauto.
  - destruct (Hslots j) as (slotHash & offset & r & -> & Hne & Hkey); [lia |].
    apply Z.eqb_neq in Hne. rewrite Hne.
    assert (Hafter : exists value,
               Get_after revs cdb key t j = Returns (Ok (Some value)) /\ P value).
    { unfold Get_after. rewrite bool_decide_false by lia.
      apply (IH (S j)); try done; try lia.
      intros i Hi. apply Hslots. lia. }
    destruct (Z.eqb_spec slotHash h) as [Heq | _]; [| done].
    destruct (Hkey Heq) as [-> HP]. cbn [mbind outcome_bind].
    destruct r as [value |]; [| done]. eauto.
Qed.

End Probing.

(** ** [Get] on the database of a run of [Put]s *)

Lemma Get_from_start revs cdb key t :
  0 < table_length t ->
  Get_loop revs cdb key (hash_of key) t (start_of t key) (start_of t key)
  = Get_from revs cdb key t 0.
Proof.
  intros Hm. unfold Get_from, way.
  rewrite slot_at_0 by (apply start_slot_range; done).
  pose proof (start_slot_range (table_length t) (hash_of key) Hm).
  fold (start_of t key) in H. rewrite Z2Nat.id by lia. done.
Qed.

Lemma Get_unfold cdb key t :
  index cdb !! table_of key = Some t ->
  Get cdb key
  = if table_length t =? 0 then Returns (Ok None)
    else Get_loop (Z.to_nat (table_length t)) cdb key (hash_of key) t
           (start_of t key) (start_of t key).
Proof.
  intros Ht. unfold Get, Get_within. fold (table_of key). rewrite Ht. done.
Qed.

Lemma getValueAt_stored kvs cdb e key value expectedKey :
  serves kvs cdb -> sized kvs ->
  stored (records kvs) indexSize e key value ->
  getValueAt cdb (entry_offset e) expectedKey
  = Returns (Ok (if decide (key = expectedKey) then Some value else None)).
Proof.
  intros [Hc Hd Hidx] [Hts Hsmall] Hst.
  pose proof (stored_bound _ _ _ _ _ Hst) as [_ Hb].
  destruct Hst as (_ & pre & post & Hrecs & Hoff).
  pose proof (len_nonneg kvs).
  set (dir := directory (indexSize + len (records kvs))
                (buckets (entry_log indexSize kvs))) in *.
  assert (Hdir : len (index_bytes dir) = indexSize) by apply len_directory_bytes.
  assert (Ha : entry_offset e = len (index_bytes dir ++ pre)).
  { rewrite len_app, Hdir. done. }
  rewrite Ha.
  apply (getValueAt_record cdb _ key value
           (post ++ tables_bytes (buckets (entry_log indexSize kvs))
              ++ sha256 (database_body kvs))).
  - done.
  - rewrite Hd, database_layout. fold dir. rewrite Hrecs, <- !app_assoc. done.
  - rewrite <- Ha. lia.
Qed.

(** The directory entry and the sub-table of the bucket of a key, and what
    the reader finds in each slot. *)
Lemma table_served kvs cdb key :
  serves kvs cdb -> sized kvs ->
  let es := bucket (table_of key) (entry_log indexSize kvs) in
  exists t,
    index cdb !! table_of key = Some t
    /\ table_length t = 2 * len es
    /\ 0 <= table_length t <= MaxUint32
    /\ table_ok (table_length t) es (sorted_of es)
    /\ forall i x, sorted_of es !! i = Some x ->
         readTuple (reader cdb)
           (uint32 (table_offset t + uint32 (8 * Z.of_nat i)))
         = Ok (entry_hash x, entry_offset x).
Proof.
  intros Hsv Hsz es.
  pose proof (table_of_lt key) as Hb.
  set (ents := buckets (entry_log indexSize kvs)).
  assert (Hes : ents !! table_of key = Some es) by (apply lookup_buckets; done).
  exists (mkTable (indexSize + len (records kvs) + tables_size (take (table_of key) ents))
                  (2 * len es)).
  assert (Hidx : index cdb !! table_of key
                 = Some (mkTable (indexSize + len (records kvs)
                                  + tables_size (take (table_of key) ents))
                                 (2 * len es))).
  { rewrite (serves_index _ _ Hsv). apply lookup_directory. done. }
  assert (Hsmall : 2 * len es <= MaxUint32).
  { destruct Hsz as [Hts Hsmall]. fold ents in Hts.
    pose proof (tables_size_take _ ents es Hes).
    pose proof (tables_size_nonneg (take (table_of key) ents)).
    pose proof (tables_size_nonneg (drop (S (table_of key)) ents)).
    pose proof (len_nonneg (records kvs)). pose proof (eq_refl : indexSize = 2048).
    pose proof (len_nonneg es). lia. }
  pose proof (len_nonneg es).
  split; [done |]. cbn [table_length]. split; [done |]. split; [lia |]. split.
  - rewrite sorted_of_spec by done. apply sort_table_returns. done.
  - intros i x Hx. apply (readTuple_slot kvs cdb (table_of key) i x); done.
Qed.

(** A key that was never written is not found. *)
Lemma Get_absent kvs cdb key :
  serves kvs cdb -> sized kvs ->
  (forall value, (key, value) ∉ kvs) ->
  Get cdb key = Returns (Ok None).
Proof.
  intros Hsv Hsz Habsent.
  destruct (table_served kvs cdb key Hsv Hsz) as (t & Ht & Hlen & Hm & Hok & Hread).
  rewrite (Get_unfold _ _ _ Ht).
  destruct (Z.eqb_spec (table_length t) 0) as [| Hne]; [done |].
  rewrite Get_from_start by lia.
  apply (Get_from_misses cdb key t ltac:(lia) (Z.to_nat (table_length t)) 0%nat);
    try lia.
  intros i Hi.
  destruct (lookup_lt_is_Some_2
              (sorted_of (bucket (table_of key) (entry_log indexSize kvs)))
              (way t key i)) as [x Hx].
  { rewrite (ok_length _ _ _ Hok). apply slot_at_lt. lia. }
  exists (entry_hash x), (entry_offset x). split; [apply Hread; done |].
  intros Hx0 Hxh.
  destruct (ok_placed _ _ _ Hok _ _ Hx) as [-> | Hin]; [done |].
  apply bucket_stored in Hin as (_ & k & v & Hkv & Hst).
  rewrite (getValueAt_stored kvs cdb x k v key Hsv Hsz Hst).
  rewrite decide_False; [done |]. intros ->. apply (Habsent v). done.
Qed.

(** A key that was written and does not hash to zero is found, with a
    value it was written with. *)
Lemma Get_present kvs cdb key value :
  serves kvs cdb -> sized kvs ->
  (key, value) ∈ kvs -> hash_of key <> 0 ->
  exists value', (key, value') ∈ kvs /\ Get cdb key = Returns (Ok (Some value')).
Proof.
  intros Hsv Hsz Hin Hh.
  destruct (table_served kvs cdb key Hsv Hsz) as (t & Ht & Hlen & Hm & Hok & Hread).
  destruct (stored_entry_log kvs indexSize key value Hin) as (e & He & Hst).
  assert (Hhe : entry_hash e = hash_of key) by apply Hst.
  assert (Hbe : e ∈ bucket (table_of key) (entry_log indexSize kvs)).
  { apply elem_of_bucket. split; [done |]. unfold bucket_of, table_of. rewrite Hhe. done. }
  assert (Hne : table_length t <> 0).
  { apply list_elem_of_lookup_1 in Hbe as [i Hi]. apply lookup_lt_Some in Hi.
    unfold len in Hlen. lia. }
  destruct (ok_findable _ _ _ Hok e Hbe ltac:(rewrite Hhe; done)) as (k & Hk & Hat & Hpath).
  rewrite Hhe in Hat, Hpath. fold (start_of t key) in Hat, Hpath.
  fold (way t key k) in Hat.
  rewrite (Get_unfold _ _ _ Ht).
  destruct (Z.eqb_spec (table_length t) 0) as [| _]; [done |].
  rewrite Get_from_start by lia.
  destruct (Get_from_hits cdb key t ltac:(lia) (fun v => (key, v) ∈ kvs) k k 0%nat)
    with (revs := Z.to_nat (table_length t)) as (value' & HG & HP); try lia.
  - exists (entry_offset e), value. rewrite <- Hhe at 1.
    split; [apply Hread; done |]. split; [done |]. split; [| done].
    rewrite (getValueAt_stored kvs cdb e key value key Hsv Hsz Hst).
    rewrite decide_True by done. done.
  - intros i Hi. destruct (Hpath i) as (x & Hx & Hx0); [lia |].
    fold (way t key i) in Hx.
    destruct (ok_placed _ _ _ Hok _ _ Hx) as [-> | Hxin]; [done |].
    apply bucket_stored in Hxin as (_ & k' & v' & Hkv & Hst').
    exists (entry_hash x), (entry_offset x),
           (if decide (k' = key) then Some v' else None).
    split; [apply Hread; done |]. split; [done |]. intros _.
    split; [apply (getValueAt_stored kvs cdb x k' v' key Hsv Hsz Hst') |].
    intros v0 Hv0. destruct (decide (k' = key)) as [-> |]; [| done].
    inversion Hv0; subst. done.
  - eauto.
Qed.

(** ** From the writer to the reader *)

Section Digest.

(** [sha256.Size]: a digest has 32 bytes. *)
Hypothesis sha256_size : forall b, len (sha256 b) = sha256_Size.

Lemma len_database_body kvs :
  sized kvs ->
  len (database_body kvs) = indexSize + len (records kvs) + 16 * len kvs.
Proof.
  intros [Hts Hsmall]. unfold database_body.
  pose proof (len_nonneg (records kvs)). pose proof (eq_refl : indexSize = 2048).
  rewrite !len_app, len_directory_bytes, len_tables_bytes by lia. lia.
Qed.

Lemma verifyChecksum_database kvs p :
  sized kvs ->
  verifyChecksum (mkFile (database kvs) p false)
  = (mkFile (database kvs) 0 false, None).
Proof.
  intros Hsz. pose proof (len_database_body kvs Hsz) as Hlen.
  pose proof (sha256_size (database_body kvs)) as Hsha.
  pose proof (len_nonneg (records kvs)). pose proof (len_nonneg kvs).
  unfold verifyChecksum. fields.
  assert (Hd : len (database kvs) = len (database_body kvs) + sha256_Size).
  { unfold database. rewrite len_app, Hsha. done. }
  rewrite Hd. unfold sha256_Size, indexSize in *.
  destruct (Z.ltb_spec (len (database_body kvs) + 32) (2048 + 32)); [lia |].
  replace (len (database_body kvs) + 32 - 32) with (len (database_body kvs)) by lia.
  unfold file_Seek. fields.
  replace (Z.to_nat (len (database_body kvs))) with (length (database_body kvs))
    by (unfold len; lia).
  assert (Hdrop : drop (length (database_body kvs)) (database kvs)
                  = sha256 (database_body kvs)) by apply drop_app_length.
  assert (Htake : take (length (database_body kvs)) (database kvs)
                  = database_body kvs) by apply take_app_length.
  rewrite Hdrop, Htake.
  rewrite firstn_all2 by (unfold len in Hsha; lia).
  rewrite bool_decide_true by done. done.
Qed.

(** [Open] accepts the database and reads its directory. *)
Lemma Open_database kvs p :
  sized kvs ->
  exists cdb, Open (mkFile (database kvs) p false) = Ok cdb /\ serves kvs cdb.
Proof.
  intros Hsz. unfold Open. rewrite verifyChecksum_database by done.
  unfold New.
  rewrite (readIndex_index_bytes _
             (directory (indexSize + len (records kvs))
                (buckets (entry_log indexSize kvs)))
             (records kvs ++ tables_bytes (buckets (entry_log indexSize kvs))
                ++ sha256 (database_body kvs))).
  - eexists. split; [done |]. split; done.
  - done.
  - fields. apply database_layout.
  - rewrite length_directory, length_buckets. done.
  - intros t Ht. destruct Hsz as [Hts Hsmall].
    pose proof (len_nonneg (records kvs)). pose proof (eq_refl : indexSize = 2048).
    eapply directory_uint32; [| | exact Ht]; lia.
Qed.

End Digest.

Lemma Puts_sized kvs w0 w :
  Create = Ok w0 -> Forall fits kvs -> Puts w0 kvs = Some w ->
  w = written kvs /\ sized kvs.
Proof.
  intros H0 Hf HP. destruct (Puts_written kvs w0 w H0 Hf HP) as (-> & Hts & Hsmall).
  split; [done | split; done].
Qed.

Lemma Close_written kvs :
  sized kvs ->
  exists w', Close (written kvs) = Returns (w', None)
             /\ data (writer w') = database kvs /\ finalizeOnce w' = true.
Proof.
  intros [Hts Hsmall]. unfold Close, finalize_once. cbn [finalizeOnce written].
  rewrite finalize_written by done. cbn [mbind outcome_bind].
  unfold file_Close, set_once, set_writer. fields. eexists. split; [done |]. done.
Qed.

Lemma Freeze_written kvs :
  sized kvs ->
  exists w' cdb, Freeze (written kvs) = Returns (w', Ok cdb)
                 /\ serves kvs cdb /\ data (writer w') = database kvs
                 /\ finalizeOnce w' = true.
Proof.
  intros [Hts Hsmall]. unfold Freeze, finalize_once. cbn [finalizeOnce written].
  rewrite finalize_written by done. cbn [mbind outcome_bind].
  unfold set_once. fields. eexists _, _. split; [done |].
  split; [split; done | done].
Qed.

(** * Main results *)

(** C4. For every [Writer] whose counters hold [uint32] values and every key
    and value of lengths an [int] can add: if
    [current_offset + 8 + len(key) + len(value) + estimated_footer_size + 16]
    exceeds [u32::MAX], [Put] returns [ErrTooMuchData] and changes nothing:
    the [Writer] it leaves is the one it was given, with the same buffered
    bytes, bucket lists, offset and footer-size counters. *)
Theorem Put_too_much_data_changes_nothing cdb key value :
  counters_fit cdb -> fits (key, value) ->
  bufferedOffset cdb + 8 + len key + len value + estimatedFooterSize cdb + 16 > MaxUint32 ->
  Put cdb key value = Returns (cdb, Some ErrTooMuchData).
Proof.
  intros Hcounters Hfits Hbig. unfold Put.
  rewrite (Put_guard cdb key value Hcounters Hfits).
  destruct (Z.gtb_spec (bufferedOffset cdb + 8 + len key + len value
                        + estimatedFooterSize cdb + 16) MaxUint32) as [_ | Hle].
  - reflexivity.
  - lia.
Qed.

(** C6. [Open] rejects a file of fewer than 2080 bytes as too small,
    whatever the digest function is; a larger file it rejects with the
    checksum error when the SHA-256 of all bytes but the last 32 differs
    from these last 32; and when it returns a reader, the file has at least
    2080 bytes and its trailer is the digest of what precedes it. *)
Theorem Open_verifies_checksum f :
  closed f = false ->
  let sz := len (data f) in
  let datasz := Z.to_nat (sz - 32) in
  (sz < 2080 -> Open f = Err ErrTooSmall)
  /\ (2080 <= sz -> sha256 (take datasz (data f)) <> drop datasz (data f) ->
      Open f = Err ErrChecksum)
  /\ (forall cdb, Open f = Ok cdb ->
      2080 <= sz /\ sha256 (take datasz (data f)) = drop datasz (data f)).
Proof.
  intros Hc sz datasz. unfold Open, verifyChecksum. rewrite Hc. fold sz.
  unfold sha256_Size. change (2048 + 32) with 2080.
  destruct (Z.ltb_spec sz 2080) as [Hlt | Hge].
  { split; [done |]. split; [lia | done]. }
  unfold file_Seek. fields. fold datasz.
  assert (Heck : take (Z.to_nat 32) (drop datasz (data f)) = drop datasz (data f)).
  { apply firstn_all2. rewrite length_drop. unfold sz, len in *. lia. }
  rewrite Heck.
  destruct (decide (drop datasz (data f) = sha256 (take datasz (data f)))) as [Heq | Hne].
  - rewrite bool_decide_true by done. cbn [negb].
    split; [lia |]. split; [intros _ Hd; congruence |]. intros cdb _. done.
  - rewrite bool_decide_false by done. cbn [negb].
    split; [lia |]. split; [done |]. intros cdb Hcdb. done.
Qed.

Lemma finish_with_once cdb op :
  finalizeOnce cdb = true ->
  exists cdb', finish_with cdb op = Returns cdb'
               /\ data (writer cdb') = data (writer cdb) /\ finalizeOnce cdb' = true.
Proof.
  intros Honce. destruct op; unfold finish_with, Close, Freeze, finalize_once;
    rewrite Honce; cbn [mbind outcome_bind].
  - unfold file_Close. destruct (closed (writer cdb)); fields;
      eexists; (split; [done |]); fields; done.
  - eexists; (split; [done |]); fields; done.
Qed.

Lemma finish_all_once ops : forall cdb,
  finalizeOnce cdb = true ->
  exists cdb', finish_all cdb ops = Returns cdb'
               /\ data (writer cdb') = data (writer cdb).
Proof.
  induction ops as [| op ops IH]; intros cdb Honce; cbn [finish_all].
  - eauto.
  - destruct (finish_with_once cdb op Honce) as (cdb1 & -> & Hd & Honce1).
    cbn [mbind outcome_bind].
    destruct (IH cdb1 Honce1) as (cdb2 & -> & Hd2). exists cdb2. split; [done | congruence].
Qed.

Lemma finish_with_first cdb cdbf index err op :
  finalizeOnce cdb = false -> finalize cdb = Returns (cdbf, index, err) ->
  exists cdb', finish_with cdb op = Returns cdb'
               /\ data (writer cdb') = data (writer cdbf) /\ finalizeOnce cdb' = true.
Proof.
  intros Honce Hfin. destruct op; unfold finish_with, Close, Freeze, finalize_once;
    rewrite Honce, Hfin; cbn [mbind outcome_bind].
  - destruct err as [e |]; [eexists; (split; [done |]); fields; done |].
    unfold set_once, file_Close. fields.
    destruct (closed (writer cdbf)); eexists; (split; [done |]); fields; done.
  - destruct err as [e |]; eexists; (split; [done |]); fields; done.
Qed.

(** C8. When [finalize] returns for a [Writer] that was not finalized yet,
    any run of one or more [Close] and [Freeze] calls returns and leaves the
    file that this single [finalize] produced: the later calls do not run
    it again. For the [Writer] of a run of successful [Put]s that file is
    the database followed by exactly one checksum trailer. *)
Theorem finalize_runs_once cdb cdbf index err op ops :
  finalizeOnce cdb = false -> finalize cdb = Returns (cdbf, index, err) ->
  exists cdb', finish_all cdb (op :: ops) = Returns cdb'
    /\ data (writer cdb') = data (writer cdbf)
    /\ forall kvs, cdb = written kvs -> sized kvs ->
         data (writer cdb') = database_body kvs ++ sha256 (database_body kvs).
Proof.
  intros Honce Hfin. cbn [finish_all].
  destruct (finish_with_first cdb cdbf index err op Honce Hfin) as (cdb1 & -> & Hd & Honce1).
  cbn [mbind outcome_bind].
  destruct (finish_all_once ops cdb1 Honce1) as (cdb2 & -> & Hd2).
  exists cdb2. split; [done |]. split; [congruence |].
  intros kvs -> [Hts Hsmall]. rewrite finalize_written in Hfin by done.
  pose proof (f_equal (fun o => match o with
                                | Returns (c, _, _) => data (writer c)
                                | _ => []
                                end) Hfin) as Hdata.
  cbn beta iota in Hdata. cbn [data writer] in Hdata.
  rewrite Hd2, Hd, <- Hdata. done.
Qed.

Lemma Get_within_from revs cdb key t :
  index cdb !! table_of key = Some t -> 0 < table_length t ->
  Get_within revs cdb key = Get_from revs cdb key t 0.
Proof.
  intros Ht Hm. unfold Get_within. fold (table_of key). rewrite Ht.
  destruct (Z.eqb_spec (table_length t) 0); [lia |].
  apply Get_from_start. done.
Qed.

(** C9. For every key whose directory entry has [table.length > 0], the
    probing loop of [Get] ends within [table.length] slots, and more
    revolutions would change nothing: [Get] does not spin. It stops at once
    with "not found" at a slot whose stored hash is 0; and when every slot
    holds a hash other than 0 and none holds the key, it stops with "not
    found" when the slot index is back at the starting slot, after exactly
    [table.length] slots. *)
Theorem Get_probe_terminates cdb key t :
  index cdb !! table_of key = Some t ->
  0 < table_length t <= MaxUint32 ->
  let m := Z.to_nat (table_length t) in
  (Get cdb key <> Spins
   /\ forall revs, (m <= revs)%nat -> Get_within revs cdb key = Get cdb key)
  /\ (forall revs j offset, (j < m)%nat ->
        readTuple (reader cdb) (slot_offset t key j) = Ok (0, offset) ->
        Get_from (S revs) cdb key t j = Returns (Ok None))
  /\ ((forall i, (i < m)%nat ->
         exists slotHash offset,
           readTuple (reader cdb) (slot_offset t key i) = Ok (slotHash, offset)
           /\ slotHash <> 0
           /\ (slotHash = hash_of key -> getValueAt cdb offset key = Returns (Ok None))) ->
      forall revs,
        Get_within revs cdb key
        = if decide (m <= revs)%nat then Returns (Ok None) else Spins).
Proof.
  intros Ht Hm m. split; [| split].
  - assert (HG : Get cdb key = Get_within m cdb key).
    { unfold Get. fold (table_of key). rewrite Ht. done. }
    destruct (Get_from_ends cdb key t Hm m 0%nat) as (r & Hr & Hall); [lia | lia |].
    rewrite HG, (Get_within_from _ _ _ _ Ht) by lia. split.
    + rewrite Hall by lia. done.
    + intros revs Hrevs. rewrite (Get_within_from _ _ _ _ Ht) by lia.
      rewrite !Hall by lia. done.
  - intros revs j offset Hj Hr. apply (Get_from_zero cdb key t Hm revs j offset); done.
  - intros Hslots revs. rewrite (Get_within_from _ _ _ _ Ht) by lia.
    apply (Get_from_passes cdb key t Hm m 0%nat); [lia | lia |].
    intros i Hi. apply Hslots. lia.
Qed.

Lemma probe_step revs sorted m slot e x :
  sorted !! Z.to_nat slot = Some x ->
  probe (S revs) sorted m slot e
  = if entry_hash x =? 0 then Returns (<[Z.to_nat slot := e]> sorted)
    else probe revs sorted m (uint32 (slot + 1) mod m) e.
Proof. intros Hx. cbn [probe]. rewrite Hx. done. Qed.

(** C10. The placement loop of [finalize] takes a slot for occupied if and
    only if its stored hash is not zero: at a slot with a zero hash it
    stores the entry, at any other it moves on. So when a slot holds an
    entry whose hash is 0 and the probe sequence of a later entry reaches
    that slot, the later entry is stored there; the earlier one is
    overwritten and, found nowhere else in the sub-table, is lost from it. *)
Theorem zero_hash_entry_is_overwritten m sorted e0 e1 k :
  0 < m <= MaxUint32 -> length sorted = Z.to_nat m -> (k < Z.to_nat m)%nat ->
  let i := slot_at m (start_slot m (entry_hash e1)) k in
  sorted !! i = Some e0 -> entry_hash e0 = 0 ->
  (forall j, (j < k)%nat ->
     exists x, sorted !! slot_at m (start_slot m (entry_hash e1)) j = Some x
               /\ entry_hash x <> 0) ->
  (forall revs slot e x, sorted !! Z.to_nat slot = Some x ->
     probe (S revs) sorted m slot e
     = if entry_hash x =? 0 then Returns (<[Z.to_nat slot := e]> sorted)
       else probe revs sorted m (uint32 (slot + 1) mod m) e)
  /\ place sorted m [e1] = Returns (<[i := e1]> sorted)
  /\ <[i := e1]> sorted !! i = Some e1
  /\ (e0 <> e1 -> (forall j, j <> i -> sorted !! j <> Some e0) ->
      e0 ∉ <[i := e1]> sorted).
Proof.
  intros Hm Hlen Hk i Hi He0 Hpath. split; [| split; [| split]].
  - intros revs slot e x. apply probe_step.
  - cbn [place]. destruct (Z.eqb_spec m 0); [lia |].
    fold (start_slot m (entry_hash e1)).
    destruct (probe_first_free e1 m sorted k (Z.to_nat m)
                (start_slot m (entry_hash e1)))
      as (k' & Hk' & [(x & Hx & Hx0) Hbefore] & Hprobe); try done.
    + apply start_slot_range. lia.
    + exists e0. done.
    + assert (k' = k); [| subst k'; rewrite Hprobe; done].
      destruct (decide (k' = k)) as [| Hne]; [done |].
      destruct (Hpath k') as (y & Hy & Hy0); [lia |].
      rewrite Hx in Hy. inversion Hy; subst. done.
  - apply list_lookup_insert_eq. apply lookup_lt_Some in Hi. done.
  - intros Hne Honly Hin. apply list_elem_of_lookup_1 in Hin as [j Hj].
    destruct (decide (j = i)) as [-> | Hji].
    + rewrite list_lookup_insert_eq in Hj by (apply lookup_lt_Some in Hi; done).
      inversion Hj. done.
    + rewrite list_lookup_insert_ne in Hj by done. apply (Honly j); done.
Qed.

(** ** The two readings of "empty" *)

Lemma find_agree {A} (P Q : A -> bool) (l : list A) :
  (forall x, P x = Q x) -> List.find P l = List.find Q l.
Proof.
  intros H. induction l as [| x l IH]; [done |]. simpl. rewrite H, IH. done.
Qed.

Lemma spec_place_agree sorted e :
  (forall x, x ∈ sorted -> x = entry0 \/ entry_hash x <> 0) ->
  spec_place zero_hash sorted e = spec_place zero_valued sorted e.
Proof.
  intros Hinv. unfold spec_place.
  rewrite (find_agree _ (fun s => match sorted !! s with
                                  | Some x => zero_valued x
                                  | None => false
                                  end)); [done |].
  intros s. destruct (sorted !! s) as [x |] eqn:Hx; [| done].
  destruct (Hinv x) as [-> | Hne]; [eapply list_elem_of_lookup_2; done | done |].
  unfold zero_hash, zero_valued. apply Z.eqb_neq in Hne. rewrite Hne. done.
Qed.

Lemma spec_place_elem empty sorted e x :
  x ∈ spec_place empty sorted e -> x = e \/ x ∈ sorted.
Proof.
  unfold spec_place. destruct (List.find _ _) as [s |]; [| tauto].
  intros Hin. apply list_elem_of_lookup_1 in Hin as [j Hj].
  destruct (decide (j = s)) as [-> | Hne].
  - destruct (decide (s < length sorted)%nat).
    + rewrite list_lookup_insert_eq in Hj by done. inversion Hj. tauto.
    + rewrite list_insert_ge in Hj by lia. right. eapply list_elem_of_lookup_2; done.
  - rewrite list_lookup_insert_ne in Hj by done. right. eapply list_elem_of_lookup_2; done.
Qed.

Lemma fold_spec_place_agree es : forall sorted,
  (forall e, e ∈ es -> entry_hash e <> 0) ->
  (forall x, x ∈ sorted -> x = entry0 \/ entry_hash x <> 0) ->
  fold_left (spec_place zero_hash) es sorted
  = fold_left (spec_place zero_valued) es sorted.
Proof.
  induction es as [| e es IH]; intros sorted Hes Hinv; [done |].
  cbn [fold_left]. rewrite <- spec_place_agree by done. apply IH.
  - intros e' He'. apply Hes. right. done.
  - intros x Hx. apply spec_place_elem in Hx as [-> | Hx].
    + right. apply Hes. left.
    + apply Hinv. done.
Qed.

(** Where no entry of the bucket has a zero hash, "zero hash" and
    "zero-valued" name the same slots. *)
Lemma spec_subtable_agree es :
  (forall e, e ∈ es -> entry_hash e <> 0) ->
  spec_subtable zero_hash es = spec_subtable zero_valued es.
Proof.
  intros Hes. unfold spec_subtable. apply fold_spec_place_agree; [done |].
  intros x Hx. apply elem_of_replicate in Hx as [-> _]. left. done.
Qed.

Lemma finalize_Puts kvs w0 w :
  Create = Ok w0 -> Forall fits kvs -> Puts w0 kvs = Some w ->
  sized kvs /\ w = written kvs /\
  exists w', finalize w
             = Returns (w', directory (indexSize + len (records kvs))
                              (buckets (entry_log indexSize kvs)), None)
    /\ writer w' = mkFile (database kvs) (len (database kvs)) false.
Proof.
  intros H0 Hf HP. destruct (Puts_sized kvs w0 w H0 Hf HP) as [-> Hsz].
  split; [done |]. split; [done |].
  destruct Hsz as [Hts Hsmall]. rewrite finalize_written by done.
  eexists. split; [done |]. done.
Qed.

(** C3. At finalize, for every bucket with its [n] entries in insertion
    order, the sub-table has [m = 2n] slots, all empty at first; each entry
    in turn goes to the first slot of its probe sequence, from
    [(hash >> 8) mod m] forward and around, whose stored hash is zero, which
    is what counts as empty; where no entry of the bucket has a zero hash
    these are the slots that are zero-valued, as the specification has it.
    The [m] slots are written in array order where the directory says. *)
Theorem subtable_is_placed_by_probing kvs w0 w b :
  Create = Ok w0 -> Forall fits kvs -> Puts w0 kvs = Some w -> (b < 256)%nat ->
  let es := bucket b (entry_log indexSize kvs) in
  let sub := spec_subtable zero_hash es in
  entries w !! b = Some es
  /\ sort_table es = (2 * len es, Returns sub)
  /\ length sub = (2 * length es)%nat
  /\ ((forall e, e ∈ es -> entry_hash e <> 0) -> sub = spec_subtable zero_valued es)
  /\ exists w' index t pre post,
       finalize w = Returns (w', index, None)
       /\ index !! b = Some t /\ table_length t = 2 * len es
       /\ data (writer w') = pre ++ slots_bytes sub ++ post
       /\ len pre = table_offset t.
Proof.
  intros H0 Hf HP Hb es sub.
  destruct (finalize_Puts kvs w0 w H0 Hf HP) as ([Hts Hsmall] & -> & w' & Hfin & Hw').
  set (ents := buckets (entry_log indexSize kvs)) in *.
  assert (Hes : ents !! b = Some es) by (apply lookup_buckets; done).
  pose proof (tables_size_take b ents es Hes).
  pose proof (tables_size_nonneg (take b ents)).
  pose proof (tables_size_nonneg (drop (S b) ents)).
  pose proof (tables_size_take_le b ents).
  pose proof (len_nonneg (records kvs)). pose proof (len_nonneg es).
  pose proof (eq_refl : indexSize = 2048).
  assert (Hes_small : 2 * len es <= MaxUint32) by lia.
  destruct (sort_table_returns es Hes_small) as [Hsort Hok].
  split; [done |]. split; [done |]. split.
  { pose proof (ok_length _ _ _ Hok) as Hl. unfold sub, len in *. lia. }
  split; [apply spec_subtable_agree |].
  exists w', (directory (indexSize + len (records kvs)) ents),
         (mkTable (indexSize + len (records kvs) + tables_size (take b ents)) (2 * len es)),
         (index_bytes (directory (indexSize + len (records kvs)) ents)
            ++ records kvs ++ tables_bytes (take b ents)),
         (tables_bytes (drop (S b) ents) ++ sha256 (database_body kvs)).
  split; [done |]. split; [apply lookup_directory; done |]. split; [done |]. split.
  - rewrite Hw'. fields. rewrite database_layout. fold ents.
    rewrite (tables_bytes_middle b ents es Hes), sorted_of_spec by done.
    rewrite <- !app_assoc. done.
  - assert (Hdir : len (index_bytes (directory (indexSize + len (records kvs)) ents))
                   = indexSize) by apply len_directory_bytes.
    rewrite !len_app, Hdir, len_tables_bytes by lia. cbn [table_offset]. lia.
Qed.

(** C7. The directory that [finalize] writes at the head of the file has
    256 entries; for every bucket [i], [directory[i].length] is zero if and
    only if the bucket holds no entry, and [directory[i].offset] is the end
    of the file when the bucket's sub-table is processed: the offset the
    records end at plus the bytes of the sub-tables of the buckets before
    it, each sub-table starting where the one before it ends. *)
Theorem directory_describes_subtables kvs w0 w :
  Create = Ok w0 -> Forall fits kvs -> Puts w0 kvs = Some w ->
  exists w' index,
    finalize w = Returns (w', index, None)
    /\ length index = 256%nat
    /\ take 2048 (data (writer w')) = index_bytes index
    /\ readIndex (reopened w') = Ok index
    /\ forall i es, entries w !! i = Some es ->
         exists t, index !! i = Some t
           /\ (table_length t = 0 <-> es = [])
           /\ table_offset t = bufferedOffset w + len (tables_bytes (take i (entries w)))
           /\ forall t', index !! S i = Some t' ->
                table_offset t' = table_offset t + 8 * table_length t.
Proof.
  intros H0 Hf HP.
  destruct (finalize_Puts kvs w0 w H0 Hf HP) as ([Hts Hsmall] & -> & w' & Hfin & Hw').
  set (ents := buckets (entry_log indexSize kvs)) in *.
  set (dir := directory (indexSize + len (records kvs)) ents) in *.
  pose proof (len_nonneg (records kvs)). pose proof (eq_refl : indexSize = 2048).
  assert (Hlen : length dir = 256%nat).
  { unfold dir. rewrite length_directory. apply length_buckets. }
  assert (Hdata : data (writer w') = index_bytes dir ++ records kvs ++ tables_bytes ents
                                       ++ sha256 (database_body kvs)).
  { rewrite Hw'. apply database_layout. }
  exists w', dir. split; [done |]. split; [done |]. split; [| split].
  - rewrite Hdata. apply take_app_length'. rewrite length_index_bytes, Hlen. done.
  - apply (readIndex_index_bytes _ dir
             (records kvs ++ tables_bytes ents ++ sha256 (database_body kvs))); try done.
    intros t Ht. eapply directory_uint32; [| | exact Ht]; lia.
  - cbn [written entries bufferedOffset]. fold ents. intros i es Hes.
    pose proof (tables_size_take i ents es Hes).
    pose proof (tables_size_nonneg (take i ents)).
    pose proof (tables_size_nonneg (drop (S i) ents)).
    pose proof (len_nonneg es).
    exists (mkTable (indexSize + len (records kvs) + tables_size (take i ents)) (2 * len es)).
    split; [apply lookup_directory; done |]. cbn [table_length table_offset]. split; [| split].
    + split.
      * intros Hz. destruct es; [done |]. unfold len in Hz. simpl in Hz. lia.
      * intros ->. done.
    + rewrite len_tables_bytes by lia. done.
    + intros t' Ht'.
      destruct (lookup_lt_is_Some_2 ents (S i)) as [es' Hes'].
      { apply lookup_lt_Some in Ht'. rewrite Hlen in Ht'.
        unfold ents. rewrite length_buckets. done. }
      unfold dir in Ht'. rewrite (lookup_directory _ _ _ _ Hes') in Ht'.
      apply (inj Some) in Ht'. rewrite <- Ht'. cbn [table_offset].
      rewrite (take_S_r _ _ _ Hes), tables_size_app. cbn [tables_size]. lia.
Qed.

Lemma reopened_database w' kvs :
  data (writer w') = database kvs -> reopened w' = mkFile (database kvs) 0 false.
Proof. intros H. unfold reopened. rewrite H. done. Qed.

(** The two ways from a run of [Put]s to a reader: [Close] and [Open], or
    [Freeze]; both lead to a reader on the database of the run. *)
Lemma readers_of_Puts kvs w0 w :
  (forall b, len (sha256 b) = sha256_Size) ->
  Create = Ok w0 -> Forall fits kvs -> Puts w0 kvs = Some w ->
  sized kvs
  /\ (exists w' cdb, Close w = Returns (w', None) /\ Open (reopened w') = Ok cdb
                     /\ serves kvs cdb /\ data (writer w') = database kvs)
  /\ (exists w' cdb, Freeze w = Returns (w', Ok cdb) /\ serves kvs cdb).
Proof.
  intros Hsha H0 Hf HP. destruct (Puts_sized kvs w0 w H0 Hf HP) as [-> Hsz].
  split; [done |]. split.
  - destruct (Close_written kvs Hsz) as (w' & HC & Hd & _).
    destruct (Open_database Hsha kvs 0 Hsz) as (cdb & HO & Hsv).
    exists w', cdb. rewrite (reopened_database w' kvs Hd).
    split; [exact HC |]. split; [exact HO |]. split; [exact Hsv | exact Hd].
  - destruct (Freeze_written kvs Hsz) as (w' & cdb & HF & Hsv & _).
    exists w', cdb. done.
Qed.

(** C1. For every database built by successful [Put]s, finalized by
    [Close] or [Freeze] and read with the same hash function, [Get] of a
    written key whose hash is not zero returns a value that was written for
    this key, byte for byte: the written value, when the key was written
    with no other. *)
Theorem Get_returns_written_value kvs w0 w key value :
  (forall b, len (sha256 b) = sha256_Size) ->
  Create = Ok w0 -> Forall fits kvs -> Puts w0 kvs = Some w ->
  (key, value) ∈ kvs -> hash_of key <> 0 ->
  (exists w' cdb value',
     Close w = Returns (w', None) /\ Open (reopened w') = Ok cdb
     /\ Get cdb key = Returns (Ok (Some value')) /\ (key, value') ∈ kvs
     /\ ((forall v, (key, v) ∈ kvs -> v = value) -> value' = value))
  /\ (exists w' cdb value',
        Freeze w = Returns (w', Ok cdb)
        /\ Get cdb key = Returns (Ok (Some value')) /\ (key, value') ∈ kvs
        /\ ((forall v, (key, v) ∈ kvs -> v = value) -> value' = value)).
Proof.
  intros Hsha H0 Hf HP Hin Hh.
  destruct (readers_of_Puts kvs w0 w Hsha H0 Hf HP)
    as (Hsz & (w1 & cdb1 & HC & HO & Hsv1 & _) & (w2 & cdb2 & HF & Hsv2)).
  split.
  - destruct (Get_present kvs cdb1 key value Hsv1 Hsz Hin Hh) as (value' & Hin' & HG).
    exists w1, cdb1, value'. repeat split; try done. intros Hone. apply Hone. done.
  - destruct (Get_present kvs cdb2 key value Hsv2 Hsz Hin Hh) as (value' & Hin' & HG).
    exists w2, cdb2, value'. repeat split; try done. intros Hone. apply Hone. done.
Qed.

(** C2. For every database built by successful [Put]s and finalized by
    [Close] or [Freeze], [Get] of a key that was never written returns "not
    found", the nil value with no error. *)
Theorem Get_of_unwritten_key_is_not_found kvs w0 w key :
  (forall b, len (sha256 b) = sha256_Size) ->
  Create = Ok w0 -> Forall fits kvs -> Puts w0 kvs = Some w ->
  (forall value, (key, value) ∉ kvs) ->
  (exists w' cdb, Close w = Returns (w', None) /\ Open (reopened w') = Ok cdb
                  /\ Get cdb key = Returns (Ok None))
  /\ (exists w' cdb, Freeze w = Returns (w', Ok cdb)
                     /\ Get cdb key = Returns (Ok None)).
Proof.
  intros Hsha H0 Hf HP Habsent.
  destruct (readers_of_Puts kvs w0 w Hsha H0 Hf HP)
    as (Hsz & (w1 & cdb1 & HC & HO & Hsv1 & _) & (w2 & cdb2 & HF & Hsv2)).
  split.
  - exists w1, cdb1. repeat split; try done. apply (Get_absent kvs); done.
  - exists w2, cdb2. repeat split; try done. apply (Get_absent kvs); done.
Qed.

(** C5. For every run of [Put]s that all succeed, finalize succeeds, the
    guard of its sub-table loop never firing, and the file up to the
    checksum trailer, that is directory, records and sub-tables, does not
    exceed [u32::MAX]: the guard of [Put] has seen to it before anything was
    written. The 32 bytes of the trailer come on top, so that the whole file
    has at most [u32::MAX + 32] bytes. *)
Theorem file_size_is_bounded kvs w0 w :
  (forall b, len (sha256 b) = sha256_Size) ->
  Create = Ok w0 -> Forall fits kvs -> Puts w0 kvs = Some w ->
  exists w', Close w = Returns (w', None)
    /\ len (data (writer w')) = indexSize + len (records kvs) + 16 * len kvs + 32
    /\ len (data (writer w')) - 32 <= MaxUint32
    /\ len (data (writer w')) <= MaxUint32 + 32.
Proof.
  intros Hsha H0 Hf HP.
  destruct (readers_of_Puts kvs w0 w Hsha H0 Hf HP)
    as (Hsz & (w1 & cdb1 & HC & _ & _ & Hd) & _).
  exists w1. split; [done |]. rewrite Hd. unfold database.
  rewrite len_app, Hsha, (len_database_body kvs Hsz).
  destruct Hsz as [_ Hsmall]. unfold sha256_Size. lia.
Qed.

(** * Further results *)

#[global] Instance Returns_inj {A} : Inj (=) (=) (@Returns A).
Proof. intros x y H. now injection H. Qed.

(** ** Which of two records with one key is found *)

Lemma found_first_empty m : found_first m [] (replicate (Z.to_nat m) entry0).
Proof. intros i e He. done. Qed.

Lemma found_first_place m placed sorted e k :
  0 < m -> table_ok m placed sorted -> found_first m placed sorted ->
  (k < Z.to_nat m)%nat ->
  first_free sorted m (start_slot m (entry_hash e)) k ->
  found_first m (placed ++ [e])
    (<[slot_at m (start_slot m (entry_hash e)) k := e]> sorted).
Proof.
  intros Hm Hok Hff Hk [(x & Hx & Hx0) Hbefore] i e0 Hi Hne.
  set (s := slot_at m (start_slot m (entry_hash e)) k) in *.
  apply lookup_app_Some in Hi as [Hi | [Hlen Hi]].
  - destruct (Hff i e0 Hi Hne) as (k0 & Hk0 & Hat & Hpath).
    exists k0. split; [done |]. split.
    + rewrite list_lookup_insert_ne; [done |].
      intros Heq. rewrite <- Heq, Hx in Hat. apply (inj Some) in Hat. subst. done.
    + intros j Hj. destruct (Hpath j Hj) as (y & i' & Hy & Hy0 & Hi' & Hpl).
      exists y, i'. split; [| split; [done | split; [done |]]].
      * rewrite list_lookup_insert_ne; [done |].
        intros Heq. rewrite <- Heq, Hx in Hy. apply (inj Some) in Hy. subst. done.
      * apply lookup_app_l_Some. done.
  - destruct (i - length placed)%nat as [| n] eqn:Hn; [| destruct n; done].
    cbn in Hi. apply (inj Some) in Hi. subst e0.
    exists k. split; [done |]. split.
    + apply list_lookup_insert_eq. apply lookup_lt_Some in Hx. done.
    + intros j Hj. destruct (Hbefore j Hj) as (y & Hy & Hy0).
      destruct (ok_placed _ _ _ Hok _ _ Hy) as [-> | Hin]; [done |].
      apply list_elem_of_lookup_1 in Hin as [i' Hi'].
      exists y, i'. split; [| split; [done | split]].
      * rewrite list_lookup_insert_ne; [done |].
        intros Heq. fold s in Hx. rewrite <- Heq, Hx in Hy.
        apply (inj Some) in Hy. subst. done.
      * apply lookup_lt_Some in Hi'. lia.
      * apply lookup_app_l_Some. done.
Qed.

Lemma fold_found_first m : forall es placed sorted,
  0 <= m <= MaxUint32 -> table_ok m placed sorted -> found_first m placed sorted ->
  (length placed + length es < Z.to_nat m \/ es = [])%nat ->
  found_first m (placed ++ es) (fold_left (spec_place zero_hash) es sorted).
Proof.
  induction es as [| e es IH]; intros placed sorted Hm Hok Hff Hroom.
  - simpl. rewrite app_nil_r. done.
  - destruct Hroom as [Hroom | ?]; [| done]. simpl in Hroom.
    assert (0 < m) by lia. cbn [fold_left].
    destruct (probe_returns e m sorted (start_slot m (entry_hash e)))
      as (k & Hk & Hfree & _).
    + lia.
    + apply Hok.
    + apply start_slot_range. done.
    + destruct Hok as [Hlen _ _ Hocc]. lia.
    + rewrite (spec_place_first_free m sorted e k); try done; [| apply Hok].
      pose proof (table_ok_place m placed sorted e k ltac:(done) Hok Hk Hfree) as Hok'.
      pose proof (found_first_place m placed sorted e k ltac:(done) Hok Hff Hk Hfree)
        as Hff'.
      specialize (IH (placed ++ [e]) _ Hm Hok' Hff').
      rewrite <- app_assoc in IH. apply IH.
      left. rewrite length_app. simpl. lia.
Qed.

Lemma sorted_of_found_first es :
  2 * len es <= MaxUint32 -> found_first (2 * len es) es (sorted_of es).
Proof.
  intros Hsmall. pose proof (len_nonneg es).
  rewrite sorted_of_spec, spec_subtable_fold by done.
  apply (fold_found_first (2 * len es) es []).
  - lia.
  - apply table_ok_empty.
  - apply found_first_empty.
  - destruct es; [right; done | left]. unfold len in *. simpl in *. lia.
Qed.

Lemma records_app kvs1 kvs2 : records (kvs1 ++ kvs2) = records kvs1 ++ records kvs2.
Proof.
  induction kvs1 as [| [k v] kvs1 IH]; [done |].
  cbn [app records]. rewrite IH, <- app_assoc. done.
Qed.

Lemma entry_log_app kvs1 : forall off kvs2,
  entry_log off (kvs1 ++ kvs2)
  = entry_log off kvs1 ++ entry_log (off + len (records kvs1)) kvs2.
Proof.
  induction kvs1 as [| [k v] kvs1 IH]; intros off kvs2.
  - cbn [app entry_log records]. change (len (@nil byte)) with 0.
    rewrite Z.add_0_r. done.
  - cbn [app entry_log]. rewrite IH, len_records_cons.
    cbn [app]. do 3 f_equal. lia.
Qed.

Lemma bucket_app b log1 log2 : bucket b (log1 ++ log2) = bucket b log1 ++ bucket b log2.
Proof. unfold bucket. apply filter_app. Qed.

Lemma stored_app recs rest off e key value :
  stored recs off e key value -> stored (recs ++ rest) off e key value.
Proof.
  intros (Hh & pre & post & -> & Hoff). split; [done |].
  exists pre, (post ++ rest). rewrite <- !app_assoc. done.
Qed.

(** Of the records written with one key, whose hash is not zero, [Get]
    finds the one that was written first. *)
Lemma Get_first kvs cdb before key value after :
  serves kvs cdb -> sized kvs ->
  kvs = before ++ (key, value) :: after ->
  (forall v, (key, v) ∉ before) -> hash_of key <> 0 ->
  Get cdb key = Returns (Ok (Some value)).
Proof.
  intros Hsv Hsz Hkvs Hfirst Hh.
  destruct (table_served kvs cdb key Hsv Hsz) as (t & Ht & Hlen & Hm & Hok & Hread).
  set (es := bucket (table_of key) (entry_log indexSize kvs)) in *.
  set (off := indexSize + len (records before)).
  set (e := mkEntry (hash_of key) off).
  set (pre := bucket (table_of key) (entry_log indexSize before)).
  assert (Hes : es = pre ++ e :: bucket (table_of key)
                                   (entry_log (off + (8 + len key + len value)) after)).
  { unfold es. rewrite Hkvs, entry_log_app. cbn [entry_log].
    rewrite bucket_app, bucket_cons. fold off e pre.
    unfold bucket_of at 1. cbn [entry_hash e]. fold (table_of key).
    rewrite decide_True by done. done. }
  assert (Hie : es !! length pre = Some e).
  { rewrite Hes. rewrite lookup_app_r by lia. rewrite Nat.sub_diag. done. }
  assert (Hst : stored (records kvs) indexSize e key value).
  { split; [done |]. exists (records before), (records after).
    rewrite Hkvs, records_app. done. }
  assert (Hpre : forall x i', (i' < length pre)%nat -> es !! i' = Some x ->
            exists k' v', k' <> key /\ stored (records kvs) indexSize x k' v').
  { intros x i' Hi' Hx. rewrite Hes, lookup_app_l in Hx by done.
    apply list_elem_of_lookup_2 in Hx. apply elem_of_bucket in Hx as [Hx _].
    apply entry_log_stored in Hx as (k' & v' & Hin & Hst').
    exists k', v'. split.
    - intros ->. apply (Hfirst v'). done.
    - rewrite Hkvs, records_app. apply stored_app. done. }
  assert (Hsmall : 2 * len es <= MaxUint32) by lia.
  pose proof (sorted_of_found_first es Hsmall) as Hff.
  destruct (Hff (length pre) e Hie Hh) as (k & Hk & Hat & Hpath).
  cbn [entry_hash e] in Hat, Hpath. rewrite <- Hlen in Hk, Hat, Hpath.
  fold (start_of t key) in Hat, Hpath. fold (way t key k) in Hat.
  assert (Hne : table_length t <> 0) by lia.
  rewrite (Get_unfold _ _ _ Ht).
  destruct (Z.eqb_spec (table_length t) 0) as [| _]; [done |].
  rewrite Get_from_start by lia.
  destruct (Get_from_hits cdb key t ltac:(lia) (fun v => v = value) k k 0%nat)
    with (revs := Z.to_nat (table_length t)) as (value' & HG & ->); try lia; [| | done].
  - exists (entry_offset e), value.
    split; [apply (Hread _ _ Hat) |]. split; [done |]. split; [| done].
    rewrite (getValueAt_stored kvs cdb e key value key Hsv Hsz Hst).
    rewrite decide_True by done. done.
  - intros i Hi. destruct (Hpath i) as (x & i' & Hx & Hx0 & Hi' & Hpl); [lia |].
    fold (way t key i) in Hx.
    destruct (Hpre x i' Hi' Hpl) as (k' & v' & Hk' & Hst').
    exists (entry_hash x), (entry_offset x), None.
    split; [apply Hread; done |]. split; [done |]. intros _. split; [| done].
    rewrite (getValueAt_stored kvs cdb x k' v' key Hsv Hsz Hst').
    rewrite decide_False by done. done.
Qed.

(** X1. When a key whose hash is not zero is written more than once, [Get]
    returns the value of the first [Put] of this key, through [Close] and
    [Open] as through [Freeze]. *)
Theorem Get_returns_first_written kvs w0 w before key value after :
  (forall b, len (sha256 b) = sha256_Size) ->
  Create = Ok w0 -> Forall fits kvs -> Puts w0 kvs = Some w ->
  kvs = before ++ (key, value) :: after ->
  (forall v, (key, v) ∉ before) -> hash_of key <> 0 ->
  (exists w' cdb, Close w = Returns (w', None) /\ Open (reopened w') = Ok cdb
                  /\ Get cdb key = Returns (Ok (Some value)))
  /\ (exists w' cdb, Freeze w = Returns (w', Ok cdb)
                     /\ Get cdb key = Returns (Ok (Some value))).
Proof.
  intros Hsha H0 Hf HP Hkvs Hfirst Hh.
  destruct (readers_of_Puts kvs w0 w Hsha H0 Hf HP)
    as (Hsz & (w1 & cdb1 & HC & HO & Hsv1 & _) & (w2 & cdb2 & HF & Hsv2)).
  split.
  - exists w1, cdb1. split; [done |]. split; [done |].
    apply (Get_first kvs cdb1 before key value after); done.
  - exists w2, cdb2. split; [done |].
    apply (Get_first kvs cdb2 before key value after); done.
Qed.

(** ** After the first [Close] or [Freeze] *)

Lemma finalize_once_sets cdb c index err :
  finalize_once cdb = Returns (c, index, err) -> finalizeOnce c = true.
Proof.
  unfold finalize_once. destruct (finalizeOnce cdb) eqn:Honce.
  - intros H. apply (inj Returns) in H. congruence.
  - destruct (finalize cdb) as [[[c' index'] err'] | |]; cbn [mbind outcome_bind]; [| done ..].
    intros H. apply (inj Returns) in H.
    assert (c = set_once c') by congruence. subst c. done.
Qed.

Lemma finalize_once_again cdb :
  finalizeOnce cdb = true -> finalize_once cdb = Returns (cdb, index0, None).
Proof. intros H. unfold finalize_once. rewrite H. done. Qed.

Lemma Get_zero_index r key : index r = index0 -> Get r key = Returns (Ok None).
Proof.
  intros Hidx. unfold Get, Get_within. fold (table_of key). rewrite Hidx.
  unfold index0. rewrite lookup_replicate_2 by apply table_of_lt. done.
Qed.

(** X2. Once a [Close] or a [Freeze] has returned, a [Freeze] returns a
    reader without an error, but its index is the zero value: through this
    reader [Get] finds no key, whatever was written. *)
Theorem Freeze_again_finds_nothing cdb0 op cdb :
  finish_with cdb0 op = Returns cdb ->
  exists r, Freeze cdb = Returns (cdb, Ok r)
    /\ reader r = writer cdb /\ index r = index0
    /\ forall key, Get r key = Returns (Ok None).
Proof.
  intros Hfin.
  assert (Honce : finalizeOnce cdb = true).
  { destruct op; unfold finish_with, Close, Freeze in Hfin;
      destruct (finalize_once cdb0) as [[[c index] err] | |] eqn:Hf;
      cbn [mbind outcome_bind] in Hfin; try done;
      apply finalize_once_sets in Hf.
    - destruct err as [e |]; [| destruct (file_Close (writer c)) as [f err']];
        cbn [mbind outcome_bind] in Hfin; apply (inj Returns) in Hfin;
        subst cdb; done.
    - destruct err as [e |]; cbn [mbind outcome_bind] in Hfin;
        apply (inj Returns) in Hfin; subst cdb; done. }
  unfold Freeze. rewrite (finalize_once_again cdb Honce). cbn [mbind outcome_bind].
  eexists. split; [done |]. split; [done |]. split; [done |].
  intros key. apply Get_zero_index. done.
Qed.

Lemma set_writer_same cdb : set_writer cdb (writer cdb) = cdb.
Proof. destruct cdb. done. Qed.

(** X3. A [Close] that has succeeded is followed by a [Close] that returns
    the error of closing a closed file, and changes nothing. *)
Theorem Close_again_is_an_error cdb cdb1 :
  Close cdb = Returns (cdb1, None) ->
  Close cdb1 = Returns (cdb1, Some ErrClosed).
Proof.
  intros HC. unfold Close in HC.
  destruct (finalize_once cdb) as [[[c index] err] | |] eqn:Hf;
    cbn [mbind outcome_bind] in HC; [| done ..].
  apply finalize_once_sets in Hf.
  destruct err as [e |]; [apply (inj Returns) in HC; congruence |].
  unfold file_Close in HC. destruct (closed (writer c)) eqn:Hcl;
    apply (inj Returns) in HC; [congruence |].
  assert (Hcdb1 : cdb1 = set_writer c (mkFile (data (writer c)) (pos (writer c)) true))
    by congruence.
  assert (Honce : finalizeOnce cdb1 = true) by (subst cdb1; done).
  assert (Hclosed : closed (writer cdb1) = true) by (subst cdb1; done).
  unfold Close. rewrite (finalize_once_again cdb1 Honce). cbn [mbind outcome_bind].
  unfold file_Close. rewrite Hclosed, set_writer_same. done.
Qed.

Lemma finalize_clears_buffer cdb c index :
  finalize cdb = Returns (c, index, None) -> bufferedWriter c = None.
Proof.
  unfold finalize. destruct (bufferedWriter cdb) as [buf |]; [| done].
  destruct (write_tables _ _ _ _ _ _) as [[[[index' buf'] off] [e |]] | |];
    cbn [mbind outcome_bind]; try done.
  destruct (closed (writer cdb)); [done |].
  unfold file_SeekEnd. intros H. apply (inj Returns) in H.
  apply (f_equal (fun p => bufferedWriter p.1.1)) in H. cbn [fst bufferedWriter] in H.
  done.
Qed.

Lemma finalize_once_clears_buffer cdb c index :
  finalizeOnce cdb = false -> finalize_once cdb = Returns (c, index, None) ->
  bufferedWriter c = None.
Proof.
  intros Honce. unfold finalize_once. rewrite Honce.
  destruct (finalize cdb) as [[[c' index'] err] | |] eqn:Hf;
    cbn [mbind outcome_bind]; [| done ..].
  intros H. apply (inj Returns) in H.
  assert (err = None) by congruence. subst err.
  assert (c = set_once c') by congruence. subst c.
  apply finalize_clears_buffer in Hf. done.
Qed.

(** X4. On a [Writer] that [Close] or [Freeze] has finalized without an
    error, a [Put] never returns nil: it returns [ErrTooMuchData] with the
    [Writer] unchanged, or it panics on the buffered writer, which is nil. *)
Theorem Put_after_finalize_never_succeeds cdb0 cdb key value :
  finalizeOnce cdb0 = false ->
  (Close cdb0 = Returns (cdb, None) \/ exists r, Freeze cdb0 = Returns (cdb, Ok r)) ->
  Put cdb key value = Panics \/ Put cdb key value = Returns (cdb, Some ErrTooMuchData).
Proof.
  intros Honce Hfin.
  assert (Hbuf : bufferedWriter cdb = None).
  { destruct Hfin as [HC | [r HF]].
    - unfold Close in HC.
      destruct (finalize_once cdb0) as [[[c index] err] | |] eqn:Hf;
        cbn [mbind outcome_bind] in HC; [| done ..].
      destruct err as [e |]; [apply (inj Returns) in HC; congruence |].
      apply (finalize_once_clears_buffer _ _ _ Honce) in Hf.
      destruct (file_Close (writer c)) as [f err']. apply (inj Returns) in HC.
      assert (cdb = set_writer c f) by congruence. subst cdb. done.
    - unfold Freeze in HF.
      destruct (finalize_once cdb0) as [[[c index] err] | |] eqn:Hf;
        cbn [mbind outcome_bind] in HF; [| done ..].
      destruct err as [e |]; apply (inj Returns) in HF; [congruence |].
      apply (finalize_once_clears_buffer _ _ _ Honce) in Hf.
      assert (cdb = c) by congruence. subst cdb. done. }
  unfold Put. destruct (_ >? _); [right; done | left].
  destruct (entries cdb !! _); [| done]. rewrite Hbuf. done.
Qed.

(** ** What [Put] keeps *)

(** X5. [Put] keeps the counters within the limit and the number of
    buckets; when it returns nil it has advanced the offset by the size of
    the record and the footer estimate by 16, and has put one entry, with the
    hash of the key and the old offset, at the end of the bucket of the key
    and nowhere else; when it returns an error it has changed nothing. *)
Theorem Put_keeps_the_limit cdb key value cdb' err :
  within_limit cdb -> fits (key, value) ->
  Put cdb key value = Returns (cdb', err) ->
  within_limit cdb'
  /\ length (entries cdb') = length (entries cdb)
  /\ writer cdb' = writer cdb
  /\ (err <> None -> cdb' = cdb)
  /\ (err = None ->
      bufferedOffset cdb' = bufferedOffset cdb + (8 + len key + len value)
      /\ estimatedFooterSize cdb' = estimatedFooterSize cdb + 16
      /\ (exists es, entries cdb !! table_of key = Some es
                     /\ entries cdb' !! table_of key
                        = Some (es ++ [mkEntry (hash_of key) (bufferedOffset cdb)]))
      /\ forall b, b <> table_of key -> entries cdb' !! b = entries cdb !! b).
Proof.
  intros Hw Hf HP.
  destruct (Put_returns _ _ _ _ _ Hw Hf HP)
    as [(-> & -> & _) | (-> & Hle & buf & es & Hb & Hes)].
  - split; [done |]. repeat split; done.
  - rewrite (Put_accepts _ _ _ _ _ Hw Hf Hle Hb Hes) in HP.
    apply (inj Returns) in HP.
    assert (Hcdb' : cdb' = {| writer := writer cdb;
                              entries := <[table_of key :=
                                 es ++ [mkEntry (hash_of key) (bufferedOffset cdb)]]>
                                           (entries cdb);
                              finalizeOnce := finalizeOnce cdb;
                              bufferedWriter := Some (buf ++ record key value);
                              bufferedOffset := bufferedOffset cdb
                                                + (8 + len key + len value);
                              estimatedFooterSize := estimatedFooterSize cdb + 16 |})
      by congruence.
    subst cdb'. fields.
    pose proof (len_nonneg key). pose proof (len_nonneg value).
    destruct Hw as (? & ? & ?).
    split; [unfold within_limit; fields; lia |].
    split; [apply length_insert |]. split; [done |]. split; [done |].
    intros _. split; [done |]. split; [done |]. split.
    + exists es. split; [done |]. apply list_lookup_insert_eq.
      apply lookup_lt_Some in Hes. done.
    + intros b Hb'. apply list_lookup_insert_ne. done.
Qed.


(** ** Readers *)

Lemma ReadAt_same r r' n off :
  data r = data r' -> closed r = closed r' -> ReadAt r n off = ReadAt r' n off.
Proof. intros Hd Hc. unfold ReadAt. rewrite Hd, Hc. done. Qed.

Lemma readTuple_same r r' off :
  data r = data r' -> closed r = closed r' -> readTuple r off = readTuple r' off.
Proof. intros Hd Hc. unfold readTuple. rewrite (ReadAt_same r r') by done. done. Qed.

Lemma getValueAt_same cdb cdb' offset key :
  data (reader cdb) = data (reader cdb') ->
  closed (reader cdb) = closed (reader cdb') ->
  getValueAt cdb offset key = getValueAt cdb' offset key.
Proof.
  intros Hd Hc. unfold getValueAt.
  rewrite (readTuple_same _ (reader cdb')) by done.
  destruct (readTuple (reader cdb') offset) as [[keyLength valueLength] |]; [| done].
  rewrite (ReadAt_same _ (reader cdb')) by done. done.
Qed.

Lemma Get_loop_same cdb cdb' key h t s :
  data (reader cdb) = data (reader cdb') ->
  closed (reader cdb) = closed (reader cdb') ->
  forall revs slot,
    Get_loop revs cdb key h t s slot = Get_loop revs cdb' key h t s slot.
Proof.
  intros Hd Hc. induction revs as [| revs IH]; intros slot; [done |].
  cbn [Get_loop]. rewrite (readTuple_same _ (reader cdb')) by done.
  destruct (readTuple (reader cdb') _) as [[slotHash offset] |]; [| done].
  rewrite (getValueAt_same cdb cdb') by done. rewrite IH. done.
Qed.

(** [Get] asks the reader for its content and its index, not for the
    position of the file. *)
Lemma Get_same cdb cdb' key :
  data (reader cdb) = data (reader cdb') ->
  closed (reader cdb) = closed (reader cdb') ->
  index cdb = index cdb' ->
  Get cdb key = Get cdb' key.
Proof.
  intros Hd Hc Hi. unfold Get, Get_within. rewrite Hi.
  destruct (index cdb' !! _) as [t |]; [| done].
  destruct (table_length t =? 0); [done |].
  apply Get_loop_same; done.
Qed.

(** X7. [Open] accepts the file that [Close] leaves after successful
    [Put]s, and the reader it returns has the index of the reader that
    [Freeze] returns and answers every [Get] as that one does. *)
Theorem Open_and_Freeze_agree kvs w0 w :
  (forall b, len (sha256 b) = sha256_Size) ->
  Create = Ok w0 -> Forall fits kvs -> Puts w0 kvs = Some w ->
  exists w1 cdb1 w2 cdb2,
    Close w = Returns (w1, None) /\ Open (reopened w1) = Ok cdb1
    /\ Freeze w = Returns (w2, Ok cdb2)
    /\ index cdb1 = index cdb2
    /\ data (reader cdb1) = data (reader cdb2)
    /\ forall key, Get cdb1 key = Get cdb2 key.
Proof.
  intros Hsha H0 Hf HP.
  destruct (readers_of_Puts kvs w0 w Hsha H0 Hf HP)
    as (Hsz & (w1 & cdb1 & HC & HO & Hsv1 & _) & (w2 & cdb2 & HF & Hsv2)).
  destruct Hsv1 as [Hc1 Hd1 Hi1]. destruct Hsv2 as [Hc2 Hd2 Hi2].
  exists w1, cdb1, w2, cdb2.
  split; [done |]. split; [done |]. split; [done |].
  split; [congruence |]. split; [congruence |].
  intros key. apply Get_same; congruence.
Qed.




Lemma Uint32_take_4 (b : bytes) : is_uint32 (Uint32 (take 4 b)).
Proof.
  unfold is_uint32, Uint32, MaxUint32.
  pose proof (le_combine_bound (take 4 b)) as [H0 H1].
  assert (Hl : (length (take 4 b) <= 4)%nat) by (rewrite length_take; lia).
  assert (2 ^ (8 * Z.of_nat (length (take 4 b))) <= 2 ^ 32)
    by (apply Z.pow_le_mono_r; lia).
  lia.
Qed.

(** X9. [New] verifies no checksum: of an open file it asks 2048 bytes,
    returns the end-of-file error when there are fewer, and else a reader
    on this file with an index of 256 entries of [uint32] values; the index
    is the one whose bytes, as [finalize] lays them out, the file starts
    with. *)
Theorem New_reads_the_directory f :
  closed f = false ->
  (len (data f) < indexSize -> New f = Err ErrEOF)
  /\ (indexSize <= len (data f) ->
      exists cdb, New f = Ok cdb /\ reader cdb = f
        /\ length (index cdb) = 256%nat
        /\ forall t, t ∈ index cdb ->
             is_uint32 (table_offset t) /\ is_uint32 (table_length t))
  /\ (forall idx rest,
        data f = index_bytes idx ++ rest -> length idx = 256%nat ->
        (forall t, t ∈ idx -> is_uint32 (table_offset t) /\ is_uint32 (table_length t)) ->
        New f = Ok {| reader := f; index := idx |}).
Proof.
  intros Hc. split; [| split].
  - unfold New, readIndex, ReadAt. rewrite Hc.
    change (indexSize =? 0) with false. cbn [Z.add].
    destruct (Z.leb_spec (0 + indexSize) (len (data f))) as [Hle | Hgt]; [| done].
    unfold indexSize in *. lia.
  - unfold New, readIndex, ReadAt. rewrite Hc.
    change (indexSize =? 0) with false. cbn [Z.add].
    destruct (Z.leb_spec (0 + indexSize) (len (data f))) as [Hle | Hgt].
    + intros _. eexists. split; [done |]. split; [done |]. fields. split.
      * rewrite length_map, length_seq. done.
      * intros t Ht. apply list_elem_of_In, in_map_iff in Ht as (i & <- & _).
        cbn [table_offset table_length]. split; apply Uint32_take_4.
    + unfold indexSize in *. lia.
  - intros idx rest Hd Hlen Hrange. unfold New.
    rewrite (readIndex_index_bytes f idx rest Hc Hd Hlen Hrange). done.
Qed.

(** X10. After [CDB.Close], which succeeds once and returns the error of a
    closed file from then on, [Get] returns this error for every key whose
    sub-table has slots, and "not found" still for a key whose sub-table has
    none: there it asks nothing of the file. *)
Theorem Get_after_Close_is_an_error cdb key t :
  closed (reader cdb) = false ->
  index cdb !! table_of key = Some t -> 0 <= table_length t ->
  exists cdb',
    CDB_Close cdb = (cdb', None) /\ index cdb' = index cdb
    /\ data (reader cdb') = data (reader cdb)
    /\ Get cdb' key = (if table_length t =? 0 then Returns (Ok None)
                       else Returns (Err ErrClosed))
    /\ CDB_Close cdb' = (cdb', Some ErrClosed).
Proof.
  intros Hc Ht Hm. unfold CDB_Close at 1, file_Close. rewrite Hc.
  eexists. split; [done |]. split; [done |]. split; [done |]. split.
  - unfold Get, Get_within. fold (table_of key). fields. rewrite Ht.
    destruct (Z.eqb_spec (table_length t) 0) as [| Hne]; [done |].
    destruct (Z.to_nat (table_length t)) as [| revs] eqn:Hrevs; [lia |].
    cbn [Get_loop]. unfold readTuple, ReadAt. fields. done.
  - unfold CDB_Close, file_Close. fields. done.
Qed.

(** ** Sub-tables *)

(** X11. The sub-table of a bucket of [n] entries has [2n] slots of which
    at most [n] hold a hash other than zero; its slots hold entries of the
    bucket or the zero entry, and every entry of the bucket whose hash is not
    zero is in it. *)
Theorem subtable_is_half_empty es :
  2 * len es <= MaxUint32 ->
  exists sorted,
    sort_table es = (2 * len es, Returns sorted)
    /\ length sorted = (2 * length es)%nat
    /\ (occupied sorted <= length es)%nat
    /\ (forall x, x ∈ sorted -> x = entry0 \/ x ∈ es)
    /\ (forall e, e ∈ es -> entry_hash e <> 0 -> e ∈ sorted).
Proof.
  intros Hsmall. destruct (sort_table_returns es Hsmall) as [Hsort Hok].
  exists (spec_subtable zero_hash es). split; [done |].
  destruct Hok as [Hlen Hpl Hfind Hocc]. split; [unfold len in *; lia |].
  split; [done |]. split.
  - intros x Hx. apply list_elem_of_lookup_1 in Hx as [i Hi]. eauto.
  - intros e He Hne. destruct (Hfind e He Hne) as (k & _ & Hat & _).
    eapply list_elem_of_lookup_2. done.
Qed.

(** ** The empty database *)

Lemma database_body_nil :
  database_body [] = index_bytes (replicate 256 (mkTable indexSize 0)).
Proof. vm_compute. reflexivity. Qed.

Lemma written_nil : Create = Ok (written []).
Proof. vm_compute. reflexivity. Qed.

(** X12. [Create] followed by [Close] leaves the file of the empty
    database: a directory of 256 entries, each of offset 2048 and length 0,
    and the digest of these 2048 bytes; [Open] accepts it, and [Get] finds no
    key in it. *)
Theorem empty_database_holds_nothing :
  (forall b, len (sha256 b) = sha256_Size) ->
  exists w0 w' cdb,
    Create = Ok w0 /\ Close w0 = Returns (w', None)
    /\ data (writer w')
       = index_bytes (replicate 256 (mkTable indexSize 0))
         ++ sha256 (index_bytes (replicate 256 (mkTable indexSize 0)))
    /\ Open (reopened w') = Ok cdb
    /\ index cdb = replicate 256 (mkTable indexSize 0)
    /\ forall key, Get cdb key = Returns (Ok None).
Proof.
  intros Hsha.
  destruct (readers_of_Puts [] (written []) (written []) Hsha written_nil
              ltac:(constructor) eq_refl)
    as (Hsz & (w1 & cdb1 & HC & HO & Hsv1 & Hd) & _).
  exists (written []), w1, cdb1.
  split; [apply written_nil |]. split; [done |]. split.
  - rewrite Hd. unfold database. rewrite database_body_nil. done.
  - split; [done |]. split.
    + destruct Hsv1 as [_ _ Hi]. rewrite Hi. vm_compute. reflexivity.
    + intros key. apply (Get_absent [] cdb1 key Hsv1 Hsz).
      intros value Hin. inversion Hin.
Qed.

(** ** A record whose lengths wrap *)

(** X13. [Get] panics on a file in which the first slot on the way of a
    key holds the hash of the key and the offset of a record whose key length
    is the length of the key and whose lengths add up to less than that in
    32 bits: the buffer is shorter than the key that is sliced off it. *)
Theorem Get_panics_when_lengths_wrap cdb key t offset valueLength buf :
  index cdb !! table_of key = Some t -> 0 < table_length t -> hash_of key <> 0 ->
  readTuple (reader cdb) (uint32 (table_offset t + uint32 (8 * start_of t key)))
  = Ok (hash_of key, offset) ->
  readTuple (reader cdb) offset = Ok (len key, valueLength) ->
  ReadAt (reader cdb) (uint32 (len key + valueLength)) (uint32 (offset + 8)) = Ok buf ->
  uint32 (len key + valueLength) < len key ->
  Get cdb key = Panics.
Proof.
  intros Ht Hm Hh Hslot Hrec Hread Hwrap. rewrite (Get_unfold _ _ _ Ht).
  destruct (Z.eqb_spec (table_length t) 0); [lia |].
  destruct (Z.to_nat (table_length t)) eqn:E; [lia |].
  cbn [Get_loop]. rewrite Hslot.
  destruct (Z.eqb_spec (hash_of key) 0); [done |]. rewrite Z.eqb_refl.
  unfold getValueAt. rewrite Hrec, Z.eqb_refl. cbn [negb]. rewrite Hread.
  destruct (Z.ltb_spec (uint32 (len key + valueLength)) (len key)); [done | lia].
Qed.

(** ** Runs of [Put] *)

(** A run of [Put]s on a [Writer] within the limit goes through, or stops at
    a [Put] that returns the error of too much data. *)
Lemma Puts_run kvs : forall cdb buf,
  within_limit cdb -> length (entries cdb) = 256%nat ->
  bufferedWriter cdb = Some buf -> Forall fits kvs ->
  (exists cdb', Puts cdb kvs = Some cdb')
  \/ (exists before key value after w,
        kvs = before ++ (key, value) :: after /\ Puts cdb before = Some w
        /\ Put w key value = Returns (w, Some ErrTooMuchData)).
Proof.
  induction kvs as [| [key value] rest IH]; intros cdb buf Hw Hl Hb Hf.
  - left. exists cdb. done.
  - apply Forall_cons in Hf as [Hf1 Hf2].
    destruct (Z.le_gt_cases
                (bufferedOffset cdb + 8 + len key + len value
                 + estimatedFooterSize cdb + 16) MaxUint32) as [Hle | Hgt].
    + destruct (lookup_lt_is_Some_2 (entries cdb) (table_of key)) as [es Hes].
      { rewrite Hl. apply table_of_lt. }
      pose proof (Put_accepts _ _ _ _ _ Hw Hf1 Hle Hb Hes) as HPut.
      match type of HPut with _ = Returns (?c, None) => set (cdb1 := c) in * end.
      destruct (IH cdb1 (buf ++ record key value))
        as [[cdb' HP] | (before & k & v & after & w & Hkvs & HP & Hrej)].
      * destruct Hw as (? & ? & ?). unfold within_limit. subst cdb1. fields.
        pose proof (len_nonneg key). pose proof (len_nonneg value). lia.
      * subst cdb1. fields. rewrite length_insert. done.
      * done.
      * done.
      * left. exists cdb'. cbn [Puts]. rewrite HPut. done.
      * right. exists ((key, value) :: before), k, v, after, w.
        split; [rewrite Hkvs; done |].
        split; [cbn [Puts]; rewrite HPut; done | done].
    + right. exists [], key, value, rest, cdb. split; [done |]. split; [done |].
      apply Put_rejects; [apply within_limit_counters; done | done | lia].
Qed.

Lemma within_limit_written kvs :
  indexSize + len (records kvs) + 16 * len kvs <= MaxUint32 -> within_limit (written kvs).
Proof.
  intros H. unfold within_limit, written. fields.
  pose proof (len_nonneg (records kvs)). pose proof (len_nonneg kvs).
  unfold indexSize in *. lia.
Qed.

Lemma Puts_after_Create kvs w0 :
  Create = Ok w0 -> Forall fits kvs ->
  (exists cdb', Puts w0 kvs = Some cdb')
  \/ (exists before key value after w,
        kvs = before ++ (key, value) :: after /\ Puts w0 before = Some w
        /\ Put w key value = Returns (w, Some ErrTooMuchData)).
Proof.
  intros H0 Hf. rewrite Create_returns in H0. apply (inj Ok) in H0. subst w0.
  apply (Puts_run kvs _ []); [| done | done | done].
  unfold within_limit, MaxUint32. fields. lia.
Qed.

Lemma Puts_below_limit kvs w0 :
  Create = Ok w0 -> Forall fits kvs ->
  indexSize + len (records kvs) + 16 * len kvs <= MaxUint32 ->
  exists w, Puts w0 kvs = Some w.
Proof.
  intros H0 Hf Hle.
  destruct (Puts_after_Create kvs w0 H0 Hf)
    as [? | (before & k & v & after & w & Hkvs & HP & Hrej)]; [done |]. exfalso.
  assert (Hfb : Forall fits before).
  { rewrite Hkvs in Hf. apply Forall_app in Hf as [? _]. done. }
  assert (Hfk : fits (k, v)).
  { rewrite Hkvs in Hf. apply Forall_app in Hf as [_ Hf].
    apply Forall_cons in Hf as [? _]. done. }
  destruct (Puts_written before w0 w H0 Hfb HP) as (-> & _ & Hsmall).
  destruct (Put_returns _ _ _ _ _ (within_limit_written before Hsmall) Hfk Hrej)
    as [(_ & _ & Hbig) | (He & _)]; [| done].
  unfold written in Hbig. fields.
  rewrite Hkvs, records_app, len_app, len_records_cons in Hle.
  unfold len in Hle at 5. rewrite length_app in Hle. cbn [length] in Hle.
  pose proof (len_nonneg (records after)). unfold len in *. lia.
Qed.

(** X14. After [Create], a run of [Put]s succeeds when the directory, the
    records and 16 bytes of sub-table for each record are within [uint32];
    when they are not, the run reaches a [Put] that returns the error of too
    much data and leaves the [Writer] as it was: no [Put] panics. *)
Theorem Puts_succeed_exactly_below_the_limit kvs w0 :
  Create = Ok w0 -> Forall fits kvs ->
  (indexSize + len (records kvs) + 16 * len kvs <= MaxUint32 ->
   exists w, Puts w0 kvs = Some w)
  /\ (MaxUint32 < indexSize + len (records kvs) + 16 * len kvs ->
      exists before key value after w,
        kvs = before ++ (key, value) :: after /\ Puts w0 before = Some w
        /\ Put w key value = Returns (w, Some ErrTooMuchData)).
Proof.
  intros H0 Hf. split.
  - apply Puts_below_limit; done.
  - intros Hgt. destruct (Puts_after_Create kvs w0 H0 Hf) as [[w HP] | ?]; [| done].
    exfalso. destruct (Puts_written kvs w0 w H0 Hf HP) as (_ & _ & Hsmall). lia.
Qed.

(** ** The default hash function *)

(** X15. [Hash32] is the low half of the 64-bit hash less its high half, in
    32 bits: the subtraction does not wrap in 64 bits, and the result is zero
    exactly for the keys whose 64-bit hash has two equal halves. *)
Theorem Hash32_folds_the_halves (Hash64 : Z -> bytes -> Z) key :
  let h := uint64 (Hash64 0x2de9ce7b97d9569f key) in
  is_uint32 (Hash32 Hash64 key)
  /\ Hash32 Hash64 key = (h mod 2 ^ 32 - h / 2 ^ 32) mod 2 ^ 32
  /\ (Hash32 Hash64 key = 0 <-> h mod 2 ^ 32 = h / 2 ^ 32).
Proof.
  intros h. unfold Hash32. fold h.
  assert (Hh : 0 <= h < 2 ^ 64) by (apply Z.mod_pos_bound; lia).
  rewrite Z.shiftr_div_pow2 by lia.
  assert (Hq : 0 <= h / 2 ^ 32 < 2 ^ 32).
  { split; [apply Z.div_pos; lia | apply Z.div_lt_upper_bound; lia]. }
  assert (Hlo : 0 <= h mod 2 ^ 32 < 2 ^ 32) by (apply Z.mod_pos_bound; lia).
  assert (Hle : h / 2 ^ 32 <= h).
  { pose proof (Z.div_mod h (2 ^ 32) ltac:(lia)). nia. }
  assert (Hu : uint64 (h - h / 2 ^ 32) = h - h / 2 ^ 32).
  { unfold uint64. apply Z.mod_small. lia. }
  rewrite Hu.
  assert (Heq : uint32 (h - h / 2 ^ 32) = (h mod 2 ^ 32 - h / 2 ^ 32) mod 2 ^ 32).
  { unfold uint32. rewrite Zminus_mod_idemp_l. done. }
  split; [apply uint32_range |]. split; [done |].
  rewrite Heq. split.
  - intros H0. destruct (Z.eq_dec (h mod 2 ^ 32) (h / 2 ^ 32)) as [| Hne]; [done |].
    exfalso. destruct (Z.lt_ge_cases (h mod 2 ^ 32) (h / 2 ^ 32)).
    + replace (h mod 2 ^ 32 - h / 2 ^ 32)
        with (h mod 2 ^ 32 - h / 2 ^ 32 + 2 ^ 32 + (-1) * 2 ^ 32) in H0 by lia.
      rewrite Z.mod_add in H0 by lia. rewrite Z.mod_small in H0 by lia. lia.
    + rewrite Z.mod_small in H0 by lia. lia.
  - intros ->. rewrite Z.sub_diag. done.
Qed.

(** ** The test of the package *)

(** X16. [TestGet] passes with every hash function that gives none of its
    three keys the hash zero: [Create], the three [Put]s and [Close] succeed,
    [Open] accepts the file, [Get] returns the value of each of the three
    keys and nothing for "foo", "bar" and "quux", and the reader closes. *)
Theorem TestGet_passes :
  (forall b, len (sha256 b) = sha256_Size) ->
  Forall (fun kv => hash_of kv.1 <> 0) testRecords ->
  exists w0 w w' db db',
    Create = Ok w0 /\ Puts w0 testRecords = Some w /\ Close w = Returns (w', None)
    /\ Open (reopened w') = Ok db
    /\ Forall (fun kv => Get db kv.1 = Returns (Ok (Some kv.2))) testRecords
    /\ Forall (fun key => Get db key = Returns (Ok None)) invKeys
    /\ CDB_Close db = (db', None).
Proof.
  intros Hsha Hh.
  assert (Hf : Forall fits testRecords) by (repeat constructor).
  pose proof written_nil as H0.
  assert (HP : exists w, Puts (written []) testRecords = Some w).
  { apply (Puts_below_limit testRecords _ H0 Hf).
    assert (Hlen : len (records testRecords) = 46) by (vm_compute; reflexivity).
    rewrite Hlen. unfold len, testRecords, indexSize, MaxUint32. cbn [length]. lia. }
  destruct HP as [w HP].
  destruct (readers_of_Puts testRecords _ w Hsha H0 Hf HP)
    as (Hsz & (w' & db & HC & HO & Hsv & _) & _).
  exists (written []), w, w', db.
  eexists. split; [done |]. split; [done |]. split; [done |]. split; [done |].
  apply Forall_cons in Hh as [Hh1 Hh]. apply Forall_cons in Hh as [Hh2 Hh].
  apply Forall_cons in Hh as [Hh3 _]. cbn [fst] in Hh1, Hh2, Hh3.
  split; [| split].
  - apply Forall_cons_2; [| apply Forall_cons_2; [| apply Forall_cons_2;
      [| apply Forall_nil_2]]]; cbn [fst snd].
    + apply (Get_first testRecords db [] hello world [(abc, def); (k123, v345)]);
        try done. intros v Hin. inversion Hin.
    + apply (Get_first testRecords db [(hello, world)] abc def [(k123, v345)]);
        try done. intros v Hin. apply list_elem_of_singleton in Hin. discriminate.
    + apply (Get_first testRecords db [(hello, world); (abc, def)] k123 v345 []);
        try done. intros v Hin.
      apply elem_of_cons in Hin as [Hin | Hin]; [discriminate |].
      apply list_elem_of_singleton in Hin. discriminate.
  - apply Forall_cons_2; [| apply Forall_cons_2; [| apply Forall_cons_2;
      [| apply Forall_nil_2]]];
      apply (Get_absent testRecords db _ Hsv Hsz); intros v Hin;
      repeat (apply elem_of_cons in Hin as [Hin | Hin]; [discriminate |]);
      inversion Hin.
  - unfold CDB_Close, file_Close. rewrite (serves_open _ _ Hsv). done.
Qed.

(** ** The ways [Get] fails *)




Lemma ReadAt_Err r n off e :
  ReadAt r n off = Err e -> e = if closed r then ErrClosed else ErrEOF.
Proof.
  unfold ReadAt. destruct (n =? 0); [done |].
  destruct (closed r); [congruence |].
  destruct (_ <=? _); [done | congruence].
Qed.

Lemma readTuple_Err r off e :
  readTuple r off = Err e -> e = if closed r then ErrClosed else ErrEOF.
Proof.
  unfold readTuple. destruct (ReadAt r 8 off) eqn:HR; [done |].
  intros H. apply ReadAt_Err in HR. congruence.
Qed.

Lemma getValueAt_Err cdb offset key e :
  getValueAt cdb offset key = Returns (Err e) ->
  e = if closed (reader cdb) then ErrClosed else ErrEOF.
Proof.
  unfold getValueAt.
  destruct (readTuple (reader cdb) offset) as [[keyLength valueLength] |] eqn:Hr.
  - destruct (negb (keyLength =? len key)); [done |].
    destruct (ReadAt _ _ _) as [buf |] eqn:HR.
    + destruct (_ <? _); [done |]. destruct (negb _); done.
    + intros H. apply ReadAt_Err in HR. congruence.
  - intros H. apply readTuple_Err in Hr. congruence.
Qed.

Lemma Get_loop_Err cdb key h t s e : forall revs slot,
  Get_loop revs cdb key h t s slot = Returns (Err e) ->
  e = if closed (reader cdb) then ErrClosed else ErrEOF.
Proof.
  induction revs as [| revs IH]; intros slot; [done |].
  cbn [Get_loop].
  destruct (readTuple (reader cdb) _) as [[slotHash offset] |] eqn:Hr.
  - destruct (Z.eqb_spec slotHash 0) as [| Hne]; [done |].
    assert (Hnext : (if uint32 (slot + 1) mod table_length t =? s
                     then Returns (Ok None)
                     else Get_loop revs cdb key h t s
                            (uint32 (slot + 1) mod table_length t))
                    = Returns (Err e) ->
                    e = if closed (reader cdb) then ErrClosed else ErrEOF).
    { destruct (_ =? s); [done |]. apply IH. }
    destruct (Z.eqb_spec slotHash h) as [-> | _]; [| done].
    destruct (getValueAt cdb offset key) as [[[v |] | e'] | |] eqn:Hg;
      cbn [mbind outcome_bind]; try done.
    intros H. apply getValueAt_Err in Hg. congruence.
  - intros H. apply readTuple_Err in Hr. congruence.
Qed.

(** X18. The errors of [Get] are those of its reads: through an open
    reader the only error [Get] returns is that of a read past the end of the
    file, and through a closed one that of a closed file. *)
Theorem Get_returns_the_error_of_a_read cdb key e :
  Get cdb key = Returns (Err e) ->
  e = if closed (reader cdb) then ErrClosed else ErrEOF.
Proof.
  unfold Get, Get_within.
  destruct (index cdb !! _) as [t |]; [| done].
  destruct (table_length t =? 0); [done |].
  apply Get_loop_Err.
Qed.

(** ** The layout of the file *)

Lemma records_concat kvs :
  records kvs
  = concat (map (fun kv : bytes * bytes =>
                   writeTuple (len kv.1) (len kv.2) ++ kv.1 ++ kv.2) kvs).
Proof.
  induction kvs as [| [k v] kvs IH]; [done |].
  cbn [records map concat fst snd]. rewrite IH. done.
Qed.

(** X19. The file that [Close] leaves after [Create] and successful
    [Put]s is, in this order: a directory of 2048 bytes; for every [Put], in
    the order of the calls, the two lengths, the key and the value; 16 bytes
    of sub-table for every record; and the digest of all that precedes it. *)
Theorem file_is_directory_records_tables_digest kvs w0 w :
  Create = Ok w0 -> Forall fits kvs -> Puts w0 kvs = Some w ->
  exists w' dir recs tables,
    Close w = Returns (w', None)
    /\ data (writer w') = dir ++ recs ++ tables ++ sha256 (dir ++ recs ++ tables)
    /\ len dir = 2048
    /\ recs = concat (map (fun kv : bytes * bytes =>
                             writeTuple (len kv.1) (len kv.2) ++ kv.1 ++ kv.2) kvs)
    /\ len tables = 16 * len kvs.
Proof.
  intros H0 Hf HP. destruct (Puts_sized kvs w0 w H0 Hf HP) as [-> Hsz].
  destruct (Close_written kvs Hsz) as (w' & HC & Hd & _).
  exists w', (index_bytes (directory (indexSize + len (records kvs))
                             (buckets (entry_log indexSize kvs)))),
    (records kvs), (tables_bytes (buckets (entry_log indexSize kvs))).
  split; [done |]. split.
  - rewrite Hd. unfold database, database_body. rewrite <- !app_assoc. done.
  - split; [apply len_directory_bytes |]. split; [apply records_concat |].
    destruct Hsz as [Hts Hsmall].
    rewrite len_tables_bytes; [done |].
    pose proof (len_nonneg (records kvs)). unfold indexSize in *. lia.
Qed.

End Cdb.

(** * The results on concrete databases *)

Lemma toy_sha256_size b : len (toy_sha256 b) = sha256_Size.
Proof. unfold toy_sha256, len. rewrite length_le_split. reflexivity. Qed.

Lemma testRecords_fit : Forall fits testRecords.
Proof. repeat constructor. Qed.

Lemma testRecords_written :
  Puts toy_hasher (written toy_hasher []) testRecords
  = Some (written toy_hasher testRecords).
Proof. vm_compute. reflexivity. Qed.

Lemma Create_written : Create = Ok (written toy_hasher []).
Proof. vm_compute. reflexivity. Qed.

Lemma Get_returns_written_value_witness :
  (abc, def) ∈ testRecords /\ hash_of toy_hasher abc <> 0 /\
  exists w' cdb value',
    Close toy_sha256 (written toy_hasher testRecords) = Returns (w', None)
    /\ Open toy_sha256 (reopened w') = Ok cdb
    /\ Get toy_hasher cdb abc = Returns (Ok (Some value'))
    /\ (abc, value') ∈ testRecords
    /\ ((forall v, (abc, v) ∈ testRecords -> v = def) -> value' = def).
Proof.
  assert (Hin : (abc, def) ∈ testRecords) by (right; left).
  assert (Hh : hash_of toy_hasher abc <> 0) by (vm_compute; discriminate).
  split; [exact Hin |]. split; [exact Hh |].
  exact (proj1 (Get_returns_written_value toy_hasher toy_sha256 testRecords _ _ abc def
                  toy_sha256_size Create_written testRecords_fit testRecords_written
                  Hin Hh)).
Defined.

(** C1, as stated, fails for a key that hashes to zero: its slot reads as
    empty, and [Get] does not find the record that was written, neither
    through the reader of [Freeze] nor after [Close] and [Open]. *)
Lemma Get_loses_key_of_zero_hash :
  exists w0 w w1 cdb1 w2 cdb2,
    NewWriter (mkFile [] 0 false) = Ok w0
    /\ Puts null_hasher w0 [(abc, def)] = Some w
    /\ Freeze toy_sha256 w = Returns (w1, Ok cdb1)
    /\ Get null_hasher cdb1 abc = Returns (Ok None)
    /\ Get null_hasher cdb1 abc <> Returns (Ok (Some def))
    /\ Close toy_sha256 w = Returns (w2, None)
    /\ Open toy_sha256 (reopened w2) = Ok cdb2
    /\ Get null_hasher cdb2 abc = Returns (Ok None)
    /\ Get null_hasher cdb2 abc <> Returns (Ok (Some def)).
Proof.
  eexists _, _, _, _, _, _.
  split; [vm_compute; reflexivity |].
  split; [vm_compute; reflexivity |].
  split; [vm_compute; reflexivity |].
  split; [vm_compute; reflexivity |].
  split; [vm_compute; discriminate |].
  split; [vm_compute; reflexivity |].
  split; [vm_compute; reflexivity |].
  split; [vm_compute; reflexivity | vm_compute; discriminate].
Qed.

Lemma foo_unwritten : forall value, (foo, value) ∉ testRecords.
Proof.
  intros value Hin. unfold testRecords in Hin.
  repeat (apply elem_of_cons in Hin as [Hin | Hin]; [discriminate Hin |]).
  inversion Hin.
Qed.

Lemma Get_of_unwritten_key_is_not_found_witness :
  (forall value, (foo, value) ∉ testRecords) /\
  (exists w' cdb,
     Close toy_sha256 (written toy_hasher testRecords) = Returns (w', None)
     /\ Open toy_sha256 (reopened w') = Ok cdb
     /\ Get toy_hasher cdb foo = Returns (Ok None))
  /\ (exists w' cdb,
        Freeze toy_sha256 (written toy_hasher testRecords) = Returns (w', Ok cdb)
        /\ Get toy_hasher cdb foo = Returns (Ok None)).
Proof.
  split; [exact foo_unwritten |].
  exact (Get_of_unwritten_key_is_not_found toy_hasher toy_sha256 testRecords _ _ foo
           toy_sha256_size Create_written testRecords_fit testRecords_written
           foo_unwritten).
Defined.

Lemma subtable_is_placed_by_probing_witness :
  (3 < 256)%nat /\
  let es := bucket 3 (entry_log toy_hasher indexSize testRecords) in
  let sub := spec_subtable zero_hash es in
  entries (written toy_hasher testRecords) !! 3%nat = Some es
  /\ sort_table es = (2 * len es, Returns sub)
  /\ length sub = (2 * length es)%nat
  /\ ((forall e, e ∈ es -> entry_hash e <> 0) -> sub = spec_subtable zero_valued es)
  /\ exists w' index t pre post,
       finalize toy_sha256 (written toy_hasher testRecords) = Returns (w', index, None)
       /\ index !! 3%nat = Some t /\ table_length t = 2 * len es
       /\ data (writer w') = pre ++ slots_bytes sub ++ post
       /\ len pre = table_offset t.
Proof.
  assert (Hb : (3 < 256)%nat) by lia.
  split; [exact Hb |].
  exact (subtable_is_placed_by_probing toy_hasher toy_sha256 testRecords _ _ 3%nat
           Create_written testRecords_fit testRecords_written Hb).
Defined.

(** C3, as stated, fails for a bucket with entries whose hash is zero: the
    second entry takes the slot of the first, which the specification
    counts as occupied, being not zero-valued. *)
Lemma zero_valued_slots_are_not_what_finalize_tests :
  exists w0 w es,
    NewWriter (mkFile [] 0 false) = Ok w0
    /\ Puts null_hasher w0 [(abc, def); (hello, world)] = Some w
    /\ entries w !! 0%nat = Some es
    /\ es = [mkEntry 0 2048; mkEntry 0 2062]
    /\ sort_table es = (4, Returns [mkEntry 0 2062; entry0; entry0; entry0])
    /\ spec_subtable zero_valued es = [mkEntry 0 2048; mkEntry 0 2062; entry0; entry0]
    /\ (sort_table es).2 <> Returns (spec_subtable zero_valued es).
Proof.
  eexists _, _, _.
  split; [vm_compute; reflexivity |].
  split; [vm_compute; reflexivity |].
  split; [vm_compute; reflexivity |].
  split; [reflexivity |].
  split; [vm_compute; reflexivity |].
  split; [vm_compute; reflexivity | vm_compute; discriminate].
Qed.

Lemma Put_too_much_data_changes_nothing_witness :
  let cdb := mkWriter (mkFile (replicate 2048 Byte.x00) 2048 false)
               (replicate 256 []) false (Some []) 4294967280 0 in
  counters_fit cdb /\ fits (abc, def)
  /\ bufferedOffset cdb + 8 + len abc + len def + estimatedFooterSize cdb + 16 > MaxUint32
  /\ Put toy_hasher cdb abc def = Returns (cdb, Some ErrTooMuchData).
Proof.
  intros cdb.
  assert (Hw : counters_fit cdb)
    by (unfold counters_fit, is_uint32, MaxUint32; simpl; lia).
  assert (Hf : fits (abc, def)) by reflexivity.
  assert (Hbig : bufferedOffset cdb + 8 + len abc + len def + estimatedFooterSize cdb + 16
                 > MaxUint32) by reflexivity.
  split; [exact Hw |]. split; [exact Hf |]. split; [exact Hbig |].
  exact (Put_too_much_data_changes_nothing toy_hasher cdb abc def Hw Hf Hbig).
Defined.

Lemma file_size_is_bounded_witness :
  exists w',
    Close toy_sha256 (written toy_hasher testRecords) = Returns (w', None)
    /\ len (data (writer w'))
       = indexSize + len (records testRecords) + 16 * len testRecords + 32
    /\ len (data (writer w')) - 32 <= MaxUint32
    /\ len (data (writer w')) <= MaxUint32 + 32.
Proof.
  exact (file_size_is_bounded toy_hasher toy_sha256 testRecords _ _
           toy_sha256_size Create_written testRecords_fit testRecords_written).
Defined.

Lemma len_largest_value : len largest_value = 4294965223.
Proof. unfold largest_value, len. rewrite length_replicate. lia. Qed.

(** C5, as stated, fails: the guard of [Put] leaves no room for the
    checksum trailer. An empty key with a value of 4294965223 bytes is
    accepted, and the file that [Close] leaves has [u32::MAX + 32] bytes. *)
Lemma trailer_exceeds_the_limit :
  exists w0 w w',
    NewWriter (mkFile [] 0 false) = Ok w0
    /\ Puts toy_hasher w0 [([], largest_value)] = Some w
    /\ Close toy_sha256 w = Returns (w', None)
    /\ len (data (writer w')) = MaxUint32 + 32
    /\ len (data (writer w')) > MaxUint32.
Proof.
  assert (Hfit : fits ([], largest_value)).
  { unfold fits. cbn [fst snd]. rewrite len_largest_value. reflexivity. }
  assert (HPut := Put_accepts toy_hasher (written toy_hasher []) [] largest_value [] []).
  cbn [written bufferedOffset estimatedFooterSize bufferedWriter entries writer
       finalizeOnce records entry_log] in HPut.
  rewrite len_largest_value in HPut.
  specialize (HPut ltac:(vm_compute; split; [| split]; discriminate) Hfit
                   ltac:(vm_compute; discriminate) eq_refl
                   ltac:(vm_compute; reflexivity)).
  match type of HPut with _ = Returns (?w, None) => set (w1 := w) in * end.
  assert (HPuts : Puts toy_hasher (written toy_hasher []) [([], largest_value)] = Some w1).
  { cbn [Puts]. rewrite HPut. reflexivity. }
  destruct (Puts_sized toy_hasher [([], largest_value)] _ _ Create_written
              ltac:(constructor; [exact Hfit | constructor]) HPuts) as [Hw Hsz].
  destruct (Close_written toy_hasher toy_sha256 _ Hsz) as (w' & HC & Hd & _).
  assert (Hlen : len (data (writer w')) = MaxUint32 + 32).
  { rewrite Hd. unfold database.
    rewrite len_app, toy_sha256_size, (len_database_body _ _ Hsz).
    rewrite len_records_cons, len_largest_value. reflexivity. }
  exists (written toy_hasher []), w1, w'.
  split; [exact Create_written |]. split; [exact HPuts |].
  split; [rewrite Hw; exact HC |]. split; [exact Hlen |].
  rewrite Hlen. reflexivity.
Qed.

Lemma Open_verifies_checksum_witness :
  let f := mkFile (replicate 10 Byte.x00) 0 false in
  closed f = false /\ Open toy_sha256 f = Err ErrTooSmall.
Proof.
  intros f. split; [reflexivity |].
  exact (proj1 (Open_verifies_checksum toy_sha256 f eq_refl) eq_refl).
Defined.

Lemma directory_describes_subtables_witness :
  exists w' index,
    finalize toy_sha256 (written toy_hasher testRecords) = Returns (w', index, None)
    /\ length index = 256%nat
    /\ take 2048 (data (writer w')) = index_bytes index
    /\ readIndex (reopened w') = Ok index
    /\ forall i es, entries (written toy_hasher testRecords) !! i = Some es ->
         exists t, index !! i = Some t
           /\ (table_length t = 0 <-> es = [])
           /\ table_offset t
              = bufferedOffset (written toy_hasher testRecords)
                + len (tables_bytes (take i (entries (written toy_hasher testRecords))))
           /\ forall t', index !! S i = Some t' ->
                table_offset t' = table_offset t + 8 * table_length t.
Proof.
  exact (directory_describes_subtables toy_hasher toy_sha256 testRecords _ _
           Create_written testRecords_fit testRecords_written).
Defined.

Lemma testRecords_sized : sized toy_hasher testRecords.
Proof. split; vm_compute; [reflexivity | discriminate]. Qed.

Lemma finalize_runs_once_witness :
  exists cdbf index cdb',
    finalizeOnce (written toy_hasher testRecords) = false
    /\ finalize toy_sha256 (written toy_hasher testRecords) = Returns (cdbf, index, None)
    /\ finish_all toy_sha256 (written toy_hasher testRecords)
         [DoClose; DoFreeze; DoClose] = Returns cdb'
    /\ data (writer cdb') = data (writer cdbf)
    /\ data (writer cdb') = database toy_hasher toy_sha256 testRecords.
Proof.
  pose proof (finalize_written toy_hasher toy_sha256 testRecords
                (sized_tables _ _ testRecords_sized)
                (sized_limit _ _ testRecords_sized)) as Hfin.
  destruct (finalize_runs_once toy_hasher toy_sha256 (written toy_hasher testRecords)
              _ _ _ DoClose [DoFreeze; DoClose] eq_refl Hfin)
    as (cdb' & Hall & Hd & Hdb).
  eexists _, _, cdb'. split; [reflexivity |]. split; [exact Hfin |].
  split; [exact Hall |]. split; [exact Hd |].
  exact (Hdb testRecords eq_refl testRecords_sized).
Defined.

Lemma Get_probe_terminates_witness :
  let cdb := mkCDB (mkFile (replicate 16 Byte.x00) 0 false)
               (replicate 256 (mkTable 0 2)) in
  index cdb !! table_of toy_hasher abc = Some (mkTable 0 2)
  /\ 0 < table_length (mkTable 0 2) <= MaxUint32
  /\ Get toy_hasher cdb abc <> Spins
  /\ Get toy_hasher cdb abc = Returns (Ok None).
Proof.
  intros cdb.
  assert (Ht : index cdb !! table_of toy_hasher abc = Some (mkTable 0 2))
    by (vm_compute; reflexivity).
  assert (Hm : 0 < table_length (mkTable 0 2) <= MaxUint32)
    by (split; [reflexivity | discriminate]).
  split; [exact Ht |]. split; [exact Hm |].
  split; [| vm_compute; reflexivity].
  exact (proj1 (proj1 (Get_probe_terminates toy_hasher cdb abc _ Ht Hm))).
Defined.

Lemma zero_hash_entry_is_overwritten_witness :
  let sorted := [mkEntry 0 2048; entry0; entry0; entry0] in
  length sorted = Z.to_nat 4
  /\ sorted !! slot_at 4 (start_slot 4 0) 0 = Some (mkEntry 0 2048)
  /\ place sorted 4 [mkEntry 0 2062]
     = Returns [mkEntry 0 2062; entry0; entry0; entry0]
  /\ mkEntry 0 2048 ∉ [mkEntry 0 2062; entry0; entry0; entry0].
Proof.
  intros sorted.
  assert (Hm : 0 < 4 <= MaxUint32) by (split; [reflexivity | discriminate]).
  assert (Hlen : length sorted = Z.to_nat 4) by reflexivity.
  assert (Hk : (0 < Z.to_nat 4)%nat) by (vm_compute; lia).
  assert (Hi : sorted !! slot_at 4 (start_slot 4 (entry_hash (mkEntry 0 2062))) 0
               = Some (mkEntry 0 2048)) by reflexivity.
  assert (Hpath : forall j, (j < 0)%nat ->
            exists x, sorted !! slot_at 4 (start_slot 4 (entry_hash (mkEntry 0 2062))) j
                      = Some x /\ entry_hash x <> 0) by (intros j Hj; lia).
  destruct (zero_hash_entry_is_overwritten 4 sorted (mkEntry 0 2048) (mkEntry 0 2062) 0%nat
              Hm Hlen Hk Hi eq_refl Hpath) as (_ & Hplace & _ & Hlost).
  split; [exact Hlen |]. split; [exact Hi |]. split; [exact Hplace |].
  apply Hlost; [discriminate |].
  intros [| [| [| [| j]]]] Hj; try discriminate. exfalso. apply Hj. reflexivity.
Defined.

(** ** The further results on concrete databases *)

Lemma Get_returns_first_written_witness :
  let kvs := [(hello, world); (abc, def); (abc, v345)] in
  kvs = [(hello, world)] ++ (abc, def) :: [(abc, v345)]
  /\ (exists w' cdb,
        Close toy_sha256 (written toy_hasher kvs) = Returns (w', None)
        /\ Open toy_sha256 (reopened w') = Ok cdb
        /\ Get toy_hasher cdb abc = Returns (Ok (Some def)))
  /\ (exists w' cdb,
        Freeze toy_sha256 (written toy_hasher kvs) = Returns (w', Ok cdb)
        /\ Get toy_hasher cdb abc = Returns (Ok (Some def))).
Proof.
  intros kvs. split; [reflexivity |].
  apply (Get_returns_first_written toy_hasher toy_sha256 kvs (written toy_hasher [])
           _ [(hello, world)] abc def [(abc, v345)]).
  - exact toy_sha256_size.
  - exact Create_written.
  - repeat constructor.
  - vm_compute. reflexivity.
  - reflexivity.
  - intros v Hin. apply list_elem_of_singleton in Hin. discriminate.
  - vm_compute. discriminate.
Defined.

Lemma Freeze_again_finds_nothing_witness :
  exists cdb r,
    finish_with toy_sha256 (written toy_hasher testRecords) DoClose = Returns cdb
    /\ Freeze toy_sha256 cdb = Returns (cdb, Ok r)
    /\ index r = index0
    /\ Get toy_hasher r abc = Returns (Ok None).
Proof.
  destruct (Close_written toy_hasher toy_sha256 testRecords testRecords_sized)
    as (w' & HC & _).
  assert (Hfin : finish_with toy_sha256 (written toy_hasher testRecords) DoClose
                 = Returns w').
  { unfold finish_with. rewrite HC. reflexivity. }
  destruct (Freeze_again_finds_nothing toy_hasher toy_sha256 _ _ _ Hfin)
    as (r & HF & _ & Hi & HG).
  exists w', r. split; [exact Hfin |]. split; [exact HF |]. split; [exact Hi |].
  exact (HG abc).
Defined.

Lemma Close_again_is_an_error_witness :
  exists w',
    Close toy_sha256 (written toy_hasher testRecords) = Returns (w', None)
    /\ Close toy_sha256 w' = Returns (w', Some ErrClosed).
Proof.
  destruct (Close_written toy_hasher toy_sha256 testRecords testRecords_sized)
    as (w' & HC & _).
  exists w'. split; [exact HC |].
  exact (Close_again_is_an_error toy_sha256 _ _ HC).
Defined.

Lemma Put_after_finalize_never_succeeds_witness :
  exists w',
    finalizeOnce (written toy_hasher testRecords) = false
    /\ Close toy_sha256 (written toy_hasher testRecords) = Returns (w', None)
    /\ (Put toy_hasher w' foo def = Panics
        \/ Put toy_hasher w' foo def = Returns (w', Some ErrTooMuchData)).
Proof.
  destruct (Close_written toy_hasher toy_sha256 testRecords testRecords_sized)
    as (w' & HC & _).
  exists w'. split; [reflexivity |]. split; [exact HC |].
  exact (Put_after_finalize_never_succeeds toy_hasher toy_sha256
           (written toy_hasher testRecords) w' foo def eq_refl (or_introl HC)).
Defined.

Lemma Put_keeps_the_limit_witness :
  exists cdb',
    within_limit (written toy_hasher []) /\ fits (abc, def)
    /\ Put toy_hasher (written toy_hasher []) abc def = Returns (cdb', None)
    /\ within_limit cdb'
    /\ bufferedOffset cdb' = bufferedOffset (written toy_hasher []) + (8 + len abc + len def)
    /\ estimatedFooterSize cdb' = estimatedFooterSize (written toy_hasher []) + 16.
Proof.
  assert (Hw : within_limit (written toy_hasher []))
    by (apply within_limit_written; vm_compute; discriminate).
  assert (Hf : fits (abc, def)) by reflexivity.
  assert (HP : Put toy_hasher (written toy_hasher []) abc def
               = Returns (written toy_hasher [(abc, def)], None))
    by (vm_compute; reflexivity).
  destruct (Put_keeps_the_limit toy_hasher _ abc def _ None Hw Hf HP)
    as (Hw' & _ & _ & _ & Hok).
  destruct (Hok eq_refl) as (Hoff & Hft & _).
  exists (written toy_hasher [(abc, def)]).
  split; [exact Hw |]. split; [exact Hf |]. split; [exact HP |].
  split; [exact Hw' |]. split; [exact Hoff | exact Hft].
Defined.


Lemma Open_and_Freeze_agree_witness :
  exists w1 cdb1 w2 cdb2,
    Close toy_sha256 (written toy_hasher testRecords) = Returns (w1, None)
    /\ Open toy_sha256 (reopened w1) = Ok cdb1
    /\ Freeze toy_sha256 (written toy_hasher testRecords) = Returns (w2, Ok cdb2)
    /\ index cdb1 = index cdb2
    /\ data (reader cdb1) = data (reader cdb2)
    /\ forall key, Get toy_hasher cdb1 key = Get toy_hasher cdb2 key.
Proof.
  exact (Open_and_Freeze_agree toy_hasher toy_sha256 testRecords _ _
           toy_sha256_size Create_written testRecords_fit testRecords_written).
Defined.


Lemma New_reads_the_directory_witness :
  let f := mkFile (replicate 10 Byte.x00) 0 false in
  closed f = false /\ len (data f) < indexSize /\ New f = Err ErrEOF.
Proof.
  intros f. split; [reflexivity |]. split; [reflexivity |].
  exact (proj1 (New_reads_the_directory f eq_refl) eq_refl).
Defined.

Lemma Get_after_Close_is_an_error_witness :
  let cdb := mkCDB (mkFile (replicate 16 Byte.x00) 0 false)
               (replicate 256 (mkTable 0 2)) in
  exists cdb',
    CDB_Close cdb = (cdb', None)
    /\ Get toy_hasher cdb abc = Returns (Ok None)
    /\ Get toy_hasher cdb' abc = Returns (Err ErrClosed)
    /\ CDB_Close cdb' = (cdb', Some ErrClosed).
Proof.
  intros cdb.
  assert (Ht : index cdb !! table_of toy_hasher abc = Some (mkTable 0 2))
    by (vm_compute; reflexivity).
  assert (Hm : 0 <= table_length (mkTable 0 2)) by discriminate.
  destruct (Get_after_Close_is_an_error toy_hasher cdb abc _ eq_refl Ht Hm)
    as (cdb' & HC & _ & _ & HG & HC').
  exists cdb'. split; [exact HC |]. split; [vm_compute; reflexivity |].
  split; [exact HG | exact HC'].
Defined.

Lemma subtable_is_half_empty_witness :
  let es := [mkEntry 24835 2048; mkEntry 25091 2062; mkEntry 24835 2076] in
  2 * len es <= MaxUint32
  /\ exists sorted,
       sort_table es = (2 * len es, Returns sorted)
       /\ length sorted = (2 * length es)%nat
       /\ (occupied sorted <= length es)%nat
       /\ (forall x, x ∈ sorted -> x = entry0 \/ x ∈ es)
       /\ (forall e, e ∈ es -> entry_hash e <> 0 -> e ∈ sorted).
Proof.
  intros es.
  assert (H : 2 * len es <= MaxUint32) by discriminate.
  split; [exact H |]. exact (subtable_is_half_empty es H).
Defined.

Lemma empty_database_holds_nothing_witness :
  exists w0 w' cdb,
    Create = Ok w0 /\ Close toy_sha256 w0 = Returns (w', None)
    /\ data (writer w')
       = index_bytes (replicate 256 (mkTable indexSize 0))
         ++ toy_sha256 (index_bytes (replicate 256 (mkTable indexSize 0)))
    /\ Open toy_sha256 (reopened w') = Ok cdb
    /\ index cdb = replicate 256 (mkTable indexSize 0)
    /\ forall key, Get toy_hasher cdb key = Returns (Ok None).
Proof.
  exact (empty_database_holds_nothing toy_hasher toy_sha256 toy_sha256_size).
Defined.

(** A file that [Open] accepts and on which [Get] panics: the sub-table of
    "abc" has one slot, which points to a record of key length 3 and value
    length [2 ^ 32 - 1]. *)
Lemma Get_panics_when_lengths_wrap_witness :
  let body := index_bytes (<[3%nat := mkTable 2048 1]> (replicate 256 (mkTable 2048 0)))
              ++ writeTuple (hash_of toy_hasher abc) 2056
              ++ writeTuple 3 4294967295 ++ [Byte.x61; Byte.x62] in
  exists cdb,
    Open toy_sha256 (mkFile (body ++ toy_sha256 body) 0 false) = Ok cdb
    /\ Get toy_hasher cdb abc = Panics.
Proof.
  intros body. eexists. split; [vm_compute; reflexivity |].
  apply (Get_panics_when_lengths_wrap toy_hasher _ abc (mkTable 2048 1) 2056 4294967295
           [Byte.x61; Byte.x62]).
  - vm_compute. reflexivity.
  - reflexivity.
  - vm_compute. discriminate.
  - vm_compute. reflexivity.
  - vm_compute. reflexivity.
  - vm_compute. reflexivity.
  - reflexivity.
Defined.

Lemma Puts_succeed_exactly_below_the_limit_witness :
  indexSize + len (records testRecords) + 16 * len testRecords <= MaxUint32
  /\ exists w, Puts toy_hasher (written toy_hasher []) testRecords = Some w.
Proof.
  assert (H : indexSize + len (records testRecords) + 16 * len testRecords <= MaxUint32)
    by (vm_compute; discriminate).
  split; [exact H |].
  exact (proj1 (Puts_succeed_exactly_below_the_limit toy_hasher testRecords _
                  Create_written testRecords_fit) H).
Defined.

Lemma TestGet_passes_witness :
  Forall (fun kv => hash_of toy_hasher kv.1 <> 0) testRecords
  /\ exists w0 w w' db db',
       Create = Ok w0 /\ Puts toy_hasher w0 testRecords = Some w
       /\ Close toy_sha256 w = Returns (w', None)
       /\ Open toy_sha256 (reopened w') = Ok db
       /\ Forall (fun kv => Get toy_hasher db kv.1 = Returns (Ok (Some kv.2))) testRecords
       /\ Forall (fun key => Get toy_hasher db key = Returns (Ok None)) invKeys
       /\ CDB_Close db = (db', None).
Proof.
  assert (Hh : Forall (fun kv => hash_of toy_hasher kv.1 <> 0) testRecords)
    by (repeat constructor; vm_compute; discriminate).
  split; [exact Hh |].
  exact (TestGet_passes toy_hasher toy_sha256 toy_sha256_size Hh).
Defined.


Lemma Get_returns_the_error_of_a_read_witness :
  let cdb := mkCDB (mkFile (replicate 16 Byte.x00) 0 false)
               (replicate 256 (mkTable 100 2)) in
  Get toy_hasher cdb abc = Returns (Err ErrEOF)
  /\ ErrEOF = if closed (reader cdb) then ErrClosed else ErrEOF.
Proof.
  intros cdb.
  assert (HG : Get toy_hasher cdb abc = Returns (Err ErrEOF)) by (vm_compute; reflexivity).
  split; [exact HG |].
  exact (Get_returns_the_error_of_a_read toy_hasher cdb abc ErrEOF HG).
Defined.

Lemma file_is_directory_records_tables_digest_witness :
  exists w' dir recs tables,
    Close toy_sha256 (written toy_hasher testRecords) = Returns (w', None)
    /\ data (writer w')
       = dir ++ recs ++ tables ++ toy_sha256 (dir ++ recs ++ tables)
    /\ len dir = 2048
    /\ recs = concat (map (fun kv : bytes * bytes =>
                             writeTuple (len kv.1) (len kv.2) ++ kv.1 ++ kv.2)
                        testRecords)
    /\ len tables = 16 * len testRecords.
Proof.
  exact (file_is_directory_records_tables_digest toy_hasher toy_sha256 testRecords _ _
           Create_written testRecords_fit testRecords_written).
Defined.
